(* ===== verification/_CoqProject ===== *)
-Q . S2P
Prelude.v
Dom.v
Button.v
Store.v
Load.v
Canvas.v
App.v
Paint.v
