(* ===== verification/Prelude.v ===== *)
(** * A verification development of pride-icons

    pride-icons is a React/TypeScript web application: the user drops a still
    picture or an animated GIF on a square canvas, and the program draws a
    pride-flag motif around it with an adjustable quality, padding, rotation
    and flag, redrawing on every animation frame while anything changed.
    This library models the core of that program, taken from the sources under
    [src/], and proves what makes it correct (and where it is not).

    ** The program and how its parts interact

    - [src/components/app/Store.tsx]: the application state ([State]), its
      closed set of actions ([Action]) and the reducer that is the single
      writer of the state.  The reducer is not pure: [setImage]/[setGif] call
      [remove()] on the previously held image and frame elements and
      [setImage] creates a new [HTMLImageElement]; [markAdShown] writes
      [localStorage].  [initialState] reads [localStorage].
    - [src/lib/load.ts]: [loadImage] turns a dropped file into one dispatch:
      [setImage] (a blob URL) for a non-GIF file or a one-frame GIF, [setGif]
      (one canvas per decoded frame and the first frame's delay) otherwise.
      It calls the gifuct-js library ([parseGIF], [decompressFrames]) and the
      canvas API ([createElement], [getContext], [new ImageData],
      [putImageData]).
    - [src/components/app/Canvas.tsx]: the render scheduler.  The
      [useAnimationFrame] callback skips while saving, while the canvas is
      not mounted, and while the state is clean and holds no GIF frames;
      otherwise it calls the external [drawFrame] and dispatches
      [markClean].  The drop handler filters the dropped item and calls
      [loadImage].  The render sizes the [<canvas>] to
      [qualityToResolution(state.quality)]; React rewrites its [width] and
      [height] when that value changes, which resets the canvas bitmap.
      Both drag handlers call [preventDefault()], which makes the canvas a
      drop target and keeps the browser from opening the dropped file.
    - [src/components/input/Button.tsx]: a [<button type='button'>] whose
      click calls its [onClick] prop when that is a function.

    Data flow: drop -> [handleDrop] -> [loadImage] -> dispatch
    [setImage]/[setGif] -> reducer (dirty := true) -> next tick paints ->
    dispatch [markClean] -> reducer (dirty := false).

    ** Files, in dependency order

    - [Prelude.v] (this file): JavaScript exceptions ([js_error]), results
      ([Result]), the world-passing exception monad [JS] of the whole
      development with its notation ([do x <- m ; k] in [js_scope]), the
      monadic list map [mapM] (for [xs.map(f)] with an [f] that may throw)
      and [forM_] (for [for ... of]), their laws, and the [dom] hint
      database.
    - [Dom.v]: the browser APIs the code calls, as an explicit [World]:
      RGBA pixels, canvas bitmaps compared up to their visible pixels
      ([bitmap_equiv], an [Equivalence] with [Proper] instances for
      [putImageData] and the read-back [bitmap_bytes]), [new ImageData] with
      its size checks, [putImageData] (unblended, clipped), the element
      store (a [gmap] from handles to image and canvas elements),
      [remove()] as a release mark (a [gset]), blob URLs and [localStorage]
      (a [gmap string string]).  The frame condition
      [frames_except] (which
      elements a computation may change) and its [dom] hint database let
      the other files prove "nothing else changed" by [auto].
    - [Store.v]: [State], [Action], [initialState] and [reducer] of
      Store.tsx, the object spreads as [set_*] updaters, the [setAngle]
      snap [snap_angle], and the release of the previous source
      [release_source].  Theorems: the dirty flag after every action, that
      the drawn fields ([view]) change only with the dirty flag, the snap,
      the release and installation done by [setImage] and [setGif], the
      rejection of invalid actions and the [localStorage] round trip.
      [state_equiv] and [action_equiv] compare numbers up to [Qeq] (the
      reducer is a [Proper] morphism for them).  [state_wf] and
      [action_wf] are the specification's [AppState] type and transition
      guards: the reducer preserves the type under the guards, and for
      every state installs a [setGif] that breaks its guard.  [reducer_rerun] is React calling the reducer a
      second time for the same update (in development under [StrictMode],
      or when it replays the update queue): a second run changes nothing
      for every action but [setImage], whose first run leaves an image
      element alive that no state holds and nothing releases.
    - [Button.v]: Button.tsx, with JavaScript values as far as [typeof]
      tells them apart ([JsValue]) and the browser's click on a button
      (listener, reported exception, activation behaviour).  Theorems: a
      click calls [onClick] exactly when it is a function (so no
      [TypeError] for an [undefined] [onClick]) and never submits a form.
    - [Load.v]: load.ts.  [loadImage] is split at its [await]:
      [loadImage_start] (dispatches a non-GIF file at once) and
      [loadImage_resume] (parses, then ignores an empty GIF, dispatches a
      one-frame GIF as [setImage] and builds the frames of the others with
      [build_frame]).  gifuct-js is the class [GifLib] (an oracle: the
      theorems hold for every instance).  Theorems: each branch, the
      all-or-nothing behaviour on a failing frame, that every frame
      rectangle is accepted (clipped, never rejected) with the pixels of
      each frame canvas, the refinement of the specification's
      compositing decoder ([composite_frames]) for full-screen frames, and
      for every GIF the pixels where the loader's canvases and the
      compositing decoder's frames part (outside each later frame's
      rectangle).
    - [Canvas.v]: Canvas.tsx.  [tick] is the [useAnimationFrame] callback,
      returning its effects ([DrawFrame], [Dispatch]) in order;
      [handleDrop] is the drop handler up to [loadImage]'s [await];
      [render] is the render of the canvas's size, with
      [qualityToResolution] (outside [src/]) as the class [QualityScale]
      carrying the specification's monotonicity law.  The scheduler's
      contract is the relation [scheduler_contract] and
      [tick_refines_contract] proves that [tick] implements it; the other
      theorem on drops gives the routing of every dropped file.  The
      drag handlers and the browser's drag-and-drop processing
      ([drop_at_canvas]) are shown to deliver every drop to [handleDrop].
    - [App.v]: the whole program as a transition system: a [Config] (state,
      world, mounted canvas, the canvas's size props, suspended loads,
      [drawFrame] log, and whether the bitmap was reset since the last
      [drawFrame]), [Event]s (control actions, drops, buffer arrivals in
      any order, animation frames), the functional [step] (the event's
      handler [handle_event], then React's render [commit]) and the
      inductive [reachable].  The
      invariant [app_inv] is proved by induction on [reachable], one lemma
      per event kind: no lost redraw, at most one source with at least two
      distinct frames, and no use of a released element.  A second
      induction, over the relation [changes_only_own] (a preorder: a step
      allocates, releases only what the state held, and changes no element
      that existed), shows that the elements the page had before the
      program ran are never touched (the mounted canvas is only resized),
      and a third one that the mounted canvas always has the resolution of
      the current quality.  Then the liveness of a change (painted at the
      next frame), the absence of repaints when idle, and stale decodes:
      every buffer arrival installs its GIF, however old its drop.  The store's context of Store.tsx ([StoreContext]: the
      default value [store_default] without [dispatch], the [Provider]'s
      memoised value [Provider_value]) and the Canvas callback reading it
      ([frame_in]): under the [Provider] it is the model's handler, outside
      one it paints the initial state and throws a [TypeError] at
      [dispatch] on every frame.
    - [Paint.v]: the frame selection of the paint routine, modelled from
      the specification ([frame_index], [shown_frame]): animation frames
      at [t0 + i * delay] keep painting the sequence and draw its frames
      in order, whatever frames came before.

    ** Numbers, bounds and the external world

    JavaScript numbers are rationals [Q] ([number] in [Store]): the sliders
    and the GIF decoder produce finite values, and NaN and the infinities
    are not modelled.  Comparisons are [js_lt], a boolean function, so
    [setAngle] computes.  Pixel coordinates, sizes and channels are [Z]
    (gifuct-js writes bytes, which the model does not need); the premultiplied-alpha
    rounding of real canvases is not modelled (pixels are stored exactly).
    Element handles are [nat]s from a counter.  No definition needs fuel:
    every recursion is structural on a list.  The Web IDL conversions of
    the canvas API's integer arguments ([unsigned long] for the sizes of
    [new ImageData], [long] for the offsets of [putImageData]) are the
    identity on the 16-bit sizes and offsets of a GIF frame and are not
    modelled.

    Not modelled, and why: gifuct-js (a library, an oracle class); the
    modules imported from [~lib] (that is [src/lib]) that are not among
    the sources ([drawFrame], [useAnimationFrame], [useStore],
    [qualityToResolution], the flag names): [drawFrame] is recorded as a
    call with its arguments (its pixels are not modelled), the tick is
    assumed to see the current state (the hook is given an empty
    dependency list, so this depends on the hook calling the latest
    callback), [useStore] is taken to be [useContext(store)], React's
    commit is assumed to run after each event's handler and before the
    next event (React batches a handler's dispatches and runs the
    reducer at that render; every handler of the sources dispatches as
    its last step and no drawn state is read in between, so the model
    runs each dispatch when it is made), and
    [qualityToResolution] is an oracle class with its law; the CSS
    classes of Canvas.tsx and Button.tsx and the [children] of [Button]
    (no state); [src/lib/types/gif-encoder-2.d.ts] (ambient type
    declarations of a library, no executable code: the export that uses
    it is not among the sources).

    Blob URLs: [createObjectURL] allocates a fresh URL, but the world does
    not track which URLs are alive; the sources never revoke one, which
    is recorded as a finding rather than proved.  React's identity-based
    re-rendering ([useMemo] on [Object.is], context consumers re-rendered
    when the value object changes) is not modelled: the reducer returns a
    fresh object for every action, so every dispatch renders, which is
    what [commit] after every event models.
*)

From stdpp Require Export base gmap sets list strings pretty.
From Stdlib Require Export ZArith Lia.

(** ** Exceptions and results *)

(** The exceptions the modelled code can raise: [new Error(msg)], a
    [TypeError] from reading a property of [undefined], and the two
    [DOMException]s of the [ImageData] constructor. *)
Inductive js_error : Type :=
| Error (msg : string)
| TypeError
| IndexSizeError
| InvalidStateError.

Inductive Result (A : Type) : Type :=
| Ok (a : A)
| Throw (e : js_error).
Arguments Ok {A} a.
Arguments Throw {A} e.

(** ** The world-passing exception monad

    A computation reads and changes a world [W] and either returns a value or
    throws.  As in JavaScript, the effects done before a [throw] are kept:
    the world after a throw is the world at the throw. *)
Definition JS (W A : Type) : Type := W -> Result A * W.

Definition ret {W A} (a : A) : JS W A := fun w => (Ok a, w).
Definition throw {W A} (e : js_error) : JS W A := fun w => (Throw e, w).
Definition bind {W A B} (m : JS W A) (k : A -> JS W B) : JS W B :=
  fun w => match m w with
           | (Ok a, w') => k a w'
           | (Throw e, w') => (Throw e, w')
           end.
Definition lift {W A} (r : Result A) : JS W A :=
  fun w => (r, w).
Definition modify {W} (f : W -> W) : JS W unit := fun w => (Ok tt, f w).
Definition gets {W A} (f : W -> A) : JS W A := fun w => (Ok (f w), w).

Declare Scope js_scope.
Delimit Scope js_scope with js.
Notation "'do' x <- m ; k" := (bind m (fun x => k))
  (at level 60, m at next level, right associativity) : js_scope.
Notation "'do' m ; k" := (bind m (fun _ => k))
  (at level 60, right associativity) : js_scope.
Open Scope js_scope.

(** [xs.map(f)] where [f] may throw: the elements are processed left to
    right, and the first throw aborts the whole map. *)
Fixpoint mapM {W A B} (f : A -> JS W B) (xs : list A) : JS W (list B) :=
  match xs with
  | [] => ret []
  | x :: xs' => do y <- f x; do ys <- mapM f xs'; ret (y :: ys)
  end.

(** [for (const x of xs) f(x)] *)
Fixpoint forM_ {W A} (f : A -> JS W unit) (xs : list A) : JS W unit :=
  match xs with
  | [] => ret tt
  | x :: xs' => do f x; forM_ f xs'
  end.

(** [o ?? []] on an array that may be [null]. *)
Definition list_of_option {A} (o : option (list A)) : list A :=
  match o with Some l => l | None => [] end.

(** Results and runs compared up to a relation [R] on the returned values:
    the same exception, or related values; and the same world after. *)
Definition result_rel {A} (R : relation A) : relation (Result A) :=
  fun r1 r2 => match r1, r2 with
               | Ok a1, Ok a2 => R a1 a2
               | Throw e1, Throw e2 => e1 = e2
               | _, _ => False
               end.

Definition run_rel {W A} (R : relation A) : relation (Result A * W) :=
  fun p1 p2 => result_rel R p1.1 p2.1 /\ p1.2 = p2.2.

(** ** Laws of the monad *)

Section monad_laws.
Context {W : Type}.

(** The inversion principle of [bind]: a successful [bind] ran both parts
    successfully. *)
Lemma bind_ok_inv {A B} (m : JS W A) (k : A -> JS W B) w b w'' :
  bind m k w = (Ok b, w'') -> exists a w', m w = (Ok a, w') /\ k a w' = (Ok b, w'').
Proof. unfold bind. destruct (m w) as [[a|e] w']; [eauto | done]. Qed.

(** A successful [mapM] returns one result per element. *)
Lemma mapM_length {A B} (f : A -> JS W B) xs w ys w' :
  mapM f xs w = (Ok ys, w') -> length ys = length xs.
Proof.
  revert w ys. induction xs as [|x xs IH]; intros w ys H; simpl in H.
  - by inversion H.
  - apply bind_ok_inv in H as (y & w1 & _ & H).
    apply bind_ok_inv in H as (ys' & w2 & H & Hr).
    inversion Hr; subst. simpl. by erewrite IH.
Qed.

End monad_laws.

(** The hint database of the development: the frame conditions of [Dom]
    (what a computation may change in the world) and of the components
    register here, so that [auto with dom] proves that a composed
    computation changes nothing else. *)
Create HintDb dom.
