(* ===== verification/Dom.v ===== *)
(** * Dom: the browser APIs the program calls

    The code under [src/] changes the page through a handful of browser APIs.
    This file models them as an explicit world ([World]) threaded through the
    [JS] monad of [Prelude]:
    - canvas bitmaps ([Bitmap]): a size and a pixel function, compared up to
      the pixels inside the bitmap ([bitmap_equiv], a setoid);
    - [ImageData] and the checks of its constructor
      [new ImageData(data, sw, sh)] ([new_ImageData]);
    - [putImageData] on a 2d context, which replaces pixels (no blending)
      and silently drops those outside the bitmap;
    - the element store: [document.createElement('canvas')], [new Image()],
      [img.src = v], [canvas.width = v], [canvas.height = v],
      [canvas.getContext('2d')] and [el.remove()];
    - [URL.createObjectURL(file)] and [localStorage].

    These are platform semantics, not code of the repository: the
    definitions follow the WHATWG HTML standard for the cases the program
    reaches.  Element handles are [nat]s allocated from a counter.
    [el.remove()] detaches an element; the images and canvases the program
    removes are never attached, so the call only marks the element as
    released, which is how the model records it ([released]). *)

From S2P Require Import Prelude.

Local Open Scope Z_scope.

(** ** Pixels and bitmaps *)

(** An RGBA8 pixel; each channel is a byte. *)
Record Pixel := mkPixel { red : Z; green : Z; blue : Z; alpha : Z }.

Definition transparent_black : Pixel := mkPixel 0 0 0 0.

#[export] Instance Pixel_eq_dec : EqDecision Pixel.
Proof. solve_decision. Qed.

(** A canvas's output bitmap.  Only the pixels with [0 <= x < bm_width] and
    [0 <= y < bm_height] exist; [bm_px] is irrelevant elsewhere. *)
Record Bitmap := mkBitmap {
  bm_width : Z;
  bm_height : Z;
  bm_px : Z -> Z -> Pixel
}.

(** A bitmap of the given size, every pixel transparent black: what a new
    canvas holds, and what setting [width] or [height] resets it to. *)
Definition blank_bitmap (w h : Z) : Bitmap :=
  mkBitmap w h (fun _ _ => transparent_black).

(** Two bitmaps are the same picture when they have the same size and the
    same pixels inside it. *)
Definition bitmap_equiv (b1 b2 : Bitmap) : Prop :=
  bm_width b1 = bm_width b2 /\ bm_height b1 = bm_height b2 /\
  forall x y, 0 <= x < bm_width b1 -> 0 <= y < bm_height b1 ->
    bm_px b1 x y = bm_px b2 x y.

#[export] Instance Bitmap_equiv : Equiv Bitmap := bitmap_equiv.

(** The integers [0 .. n-1], for enumerating the pixels of a bitmap. *)
Definition Z_range (n : Z) : list Z := map Z.of_nat (seq 0 (Z.to_nat n)).

(** The bytes [getImageData(0, 0, width, height).data] would return: the
    pixels in row-major order, four channels each.  Executable, so two
    concrete bitmaps can be compared by computation. *)
Definition bitmap_bytes (b : Bitmap) : list Z :=
  y ← Z_range (bm_height b);
  x ← Z_range (bm_width b);
  let p := bm_px b x y in [red p; green p; blue p; alpha p].

(** ** ImageData *)

(** [ImageData]: a width, a height and the RGBA bytes of a
    [Uint8ClampedArray], row-major. *)
Record ImageData := mkImageData {
  id_width : Z;
  id_height : Z;
  id_data : list Z
}.

(** [new ImageData(data, sw, sh)] (HTML standard, "ImageData(data, sw,
    sh)"): the byte length must be a nonzero multiple of 4
    (InvalidStateError), the pixel count a multiple of [sw] (IndexSizeError;
    this also rejects [sw = 0]) and the quotient equal to [sh]
    (IndexSizeError). *)
Definition new_ImageData (data : list Z) (sw sh : Z) : Result ImageData :=
  let len := Z.of_nat (length data) in
  if (len =? 0) || negb (len mod 4 =? 0) then Throw InvalidStateError
  else
    let npx := len / 4 in
    if (sw =? 0) || negb (npx mod sw =? 0) then Throw IndexSizeError
    else if negb (npx / sw =? sh) then Throw IndexSizeError
    else Ok (mkImageData sw sh data).

Definition byte_at (data : list Z) (i : Z) : Z := default 0 (data !! Z.to_nat i).

(** The pixel at [(x, y)] of an [ImageData]. *)
Definition id_px (d : ImageData) (x y : Z) : Pixel :=
  let i := 4 * (y * id_width d + x) in
  mkPixel (byte_at (id_data d) i) (byte_at (id_data d) (i + 1))
          (byte_at (id_data d) (i + 2)) (byte_at (id_data d) (i + 3)).

(** Whether [(x, y)] lies in the rectangle of size [w] x [h] at [(x0, y0)]. *)
Definition in_rect (x0 y0 w h x y : Z) : bool :=
  (x0 <=? x) && (x <? x0 + w) && (y0 <=? y) && (y <? y0 + h).

(** [ctx.putImageData(d, dx, dy)]: every pixel of [d] is copied, unblended,
    to [(dx + x, dy + y)]; the pixels that fall outside the bitmap are
    dropped (the bitmap keeps its size). *)
Definition putImageData (b : Bitmap) (d : ImageData) (dx dy : Z) : Bitmap :=
  mkBitmap (bm_width b) (bm_height b)
    (fun x y => if in_rect dx dy (id_width d) (id_height d) x y
                then id_px d (x - dx) (y - dy) else bm_px b x y).

(** ** Elements and the world *)

Inductive Element : Type :=
| ImageElement (src : string)
| CanvasElement (bm : Bitmap).

Record World := mkWorld {
  elements : gmap nat Element;   (** the live element objects, by handle *)
  released : gset nat;           (** the handles [remove()] was called on *)
  next_handle : nat;             (** the next fresh handle *)
  next_blob : N;                 (** the counter behind blob URLs *)
  storage : gmap string string;  (** [localStorage] *)
  context_2d : bool              (** whether [getContext('2d')] succeeds *)
}.

Abbreviation JSW := (JS World).

Definition set_elements (es : gmap nat Element) (w : World) : World :=
  mkWorld es (released w) (next_handle w) (next_blob w) (storage w) (context_2d w).

(** Allocate a new element object and return its handle. *)
Definition alloc (e : Element) : JSW nat :=
  fun w => (Ok (next_handle w),
            mkWorld (<[next_handle w := e]> (elements w)) (released w)
                    (S (next_handle w)) (next_blob w) (storage w) (context_2d w)).

(** [document.createElement('canvas')]: a 300 x 150 transparent canvas. *)
Definition createElement_canvas : JSW nat :=
  alloc (CanvasElement (blank_bitmap 300 150)).

(** [new Image()]: an image element with an empty [src]. *)
Definition new_Image : JSW nat := alloc (ImageElement "").

(** Change the element at [h] with [f]; nothing happens for a handle that
    is not an element. *)
Definition update_element (f : Element -> Element) (h : nat) : JSW unit :=
  modify (fun w => set_elements (alter f h (elements w)) w).

(** [img.src = v] *)
Definition set_src (h : nat) (v : string) : JSW unit :=
  update_element (fun e => match e with ImageElement _ => ImageElement v | e => e end) h.

(** [canvas.width = v] and [canvas.height = v]: the bitmap is resized and
    cleared to transparent black. *)
Definition set_canvas_width (h : nat) (v : Z) : JSW unit :=
  update_element (fun e => match e with
                           | CanvasElement b => CanvasElement (blank_bitmap v (bm_height b))
                           | e => e end) h.
Definition set_canvas_height (h : nat) (v : Z) : JSW unit :=
  update_element (fun e => match e with
                           | CanvasElement b => CanvasElement (blank_bitmap (bm_width b) v)
                           | e => e end) h.

(** [canvas.getContext('2d')]: the context of the canvas (identified by
    the canvas's handle) or [null]. *)
Definition getContext_2d (h : nat) : JSW (option nat) :=
  gets (fun w => match elements w !! h with
                 | Some (CanvasElement _) => if context_2d w then Some h else None
                 | _ => None
                 end).

(** [ctx.putImageData(d, dx, dy)] on the canvas of the context [ctx]. *)
Definition putImageData_on (ctx : nat) (d : ImageData) (dx dy : Z) : JSW unit :=
  update_element (fun e => match e with
                           | CanvasElement b => CanvasElement (putImageData b d dx dy)
                           | e => e end) ctx.

(** [el.remove()] *)
Definition remove (h : nat) : JSW unit :=
  modify (fun w => mkWorld (elements w) ({[h]} ∪ released w) (next_handle w)
                           (next_blob w) (storage w) (context_2d w)).

(** [URL.createObjectURL(file)]: a fresh [blob:] URL. *)
Definition createObjectURL : JSW string :=
  fun w => (Ok ("blob:" +:+ pretty (next_blob w))%string,
            mkWorld (elements w) (released w) (next_handle w)
                    (N.succ (next_blob w)) (storage w) (context_2d w)).

(** [localStorage.setItem(k, v)] *)
Definition localStorage_setItem (k v : string) : JSW unit :=
  modify (fun w => mkWorld (elements w) (released w) (next_handle w)
                           (next_blob w) (<[k := v]> (storage w)) (context_2d w)).

(** Whether an element slot holds a canvas. *)
Definition is_canvas (o : option Element) : bool :=
  match o with Some (CanvasElement _) => true | _ => false end.

(** A world is well formed when every element handle was allocated. *)
Definition world_wf (w : World) : Prop :=
  forall h, is_Some (elements w !! h) -> (h < next_handle w)%nat.

(** The world of a freshly loaded page: no element of the program's yet,
    an empty [localStorage], and a browser with 2d canvases. *)
Definition empty_world : World := mkWorld ∅ ∅ 0 0 ∅ true.

(** A computation preserves the world's well-formedness, never frees a
    handle, and does not change an element that existed before, except
    the ones in [touched].  Every operation of this file satisfies it,
    which the [dom] hints record. *)
Definition frames_except {A} (touched : gset nat) (m : JSW A) : Prop :=
  forall w r w', world_wf w -> m w = (r, w') ->
    world_wf w' /\ (next_handle w <= next_handle w')%nat /\
    released w ⊆ released w' /\
    context_2d w' = context_2d w /\
    forall h, (h < next_handle w)%nat -> h ∉ touched -> elements w' !! h = elements w !! h.

(** The world after [remove()] was called on every handle of [hs]. *)
Definition release_all (hs : gset nat) (w : World) : World :=
  mkWorld (elements w) (hs ∪ released w) (next_handle w) (next_blob w)
          (storage w) (context_2d w).

(** ** Bitmaps: the equivalence and its morphisms *)

#[export] Instance bitmap_equiv_equivalence : Equivalence (≡@{Bitmap}).
Proof.
  split.
  - intros b. repeat split; auto.
  - intros b1 b2 (Hw & Hh & Hp). repeat split; auto.
    intros x y Hx Hy. symmetry. apply Hp; lia.
  - intros b1 b2 b3 (Hw1 & Hh1 & Hp1) (Hw2 & Hh2 & Hp2). repeat split; [lia | lia |].
    intros x y Hx Hy. rewrite Hp1 by lia. apply Hp2; lia.
Qed.

(** [putImageData] maps equal pictures to equal pictures. *)
#[export] Instance putImageData_proper :
  Proper ((≡) ==> (=) ==> (=) ==> (=) ==> (≡)) putImageData.
Proof.
  intros b1 b2 (Hw & Hh & Hp) d ? <- dx ? <- dy ? <-.
  repeat split; simpl; auto.
  intros x y Hx Hy. destruct (in_rect _ _ _ _ x y); auto.
Qed.

Lemma Z_range_bounds (n : Z) : Forall (fun x => 0 <= x < n) (Z_range n).
Proof.
  unfold Z_range. apply Forall_map, Forall_forall.
  intros k Hk%list_elem_of_In%in_seq. lia.
Qed.

(** Equivalent bitmaps read back as the same bytes, so [bitmap_bytes]
    decides the equivalence on concrete bitmaps. *)
#[export] Instance bitmap_bytes_proper : Proper ((≡) ==> (=)) bitmap_bytes.
Proof.
  intros b1 b2 (Hw & Hh & Hp). unfold bitmap_bytes. rewrite <- Hw, <- Hh.
  apply Forall_bind_ext. eapply Forall_impl; [apply Z_range_bounds |]. intros y Hy.
  apply Forall_bind_ext. eapply Forall_impl; [apply Z_range_bounds |]. intros x Hx.
  by rewrite Hp.
Qed.

(** ** The world: allocation and frame conditions *)

Lemma world_wf_map_Forall w :
  world_wf w <-> map_Forall (fun h _ => (h < next_handle w)%nat) (elements w).
Proof.
  split.
  - intros Hwf h e He. apply Hwf. by rewrite He.
  - intros Hm h [e He]. exact (Hm h e He).
Qed.

(** Well-formedness is decidable, so it is checked by computation on a
    concrete world. *)
#[export] Instance world_wf_dec w : Decision (world_wf w).
Proof.
  destruct (decide (map_Forall (fun h (_ : Element) => (h < next_handle w)%nat) (elements w)))
    as [H|H]; [left | right]; by rewrite world_wf_map_Forall.
Defined.

(** [alloc] returns a handle that was free and is now the given element. *)
Lemma alloc_spec e w h w' :
  world_wf w -> alloc e w = (Ok h, w') ->
  h = next_handle w /\ elements w !! h = None /\ elements w' = <[h := e]> (elements w) /\
  next_handle w' = S h /\ released w' = released w /\ storage w' = storage w /\
  context_2d w' = context_2d w /\ world_wf w'.
Proof.
  intros Hwf [= <- <-]. simpl. repeat split; auto.
  - destruct (elements w !! next_handle w) eqn:E; [|done].
    specialize (Hwf (next_handle w) ltac:(by rewrite E)). lia.
  - intros h Hh. simpl in *. destruct (decide (h = next_handle w)) as [->|Hne]; [lia|].
    rewrite lookup_insert_ne in Hh by done. specialize (Hwf h Hh). lia.
Qed.

Lemma frames_except_ret {A} t (a : A) : frames_except t (ret a).
Proof. intros w r w' Hwf [= <- <-]. repeat split; auto; set_solver. Qed.

Lemma frames_except_throw {A} t e : frames_except t (throw (A:=A) e).
Proof. intros w r w' Hwf [= <- <-]. repeat split; auto; set_solver. Qed.

Lemma frames_except_lift {A} t (r0 : Result A) : frames_except t (lift r0).
Proof. intros w r w' Hwf [= <- <-]. repeat split; auto; set_solver. Qed.

Lemma frames_except_gets {A} t (f : World -> A) : frames_except t (gets f).
Proof. intros w r w' Hwf [= <- <-]. repeat split; auto; set_solver. Qed.

Lemma frames_except_bind {A B} t (m : JSW A) (k : A -> JSW B) :
  frames_except t m -> (forall a, frames_except t (k a)) -> frames_except t (bind m k).
Proof.
  intros Hm Hk w r w' Hwf H. unfold bind in H.
  destruct (m w) as [[a|e] w1] eqn:E.
  - destruct (Hm _ _ _ Hwf E) as (Hwf1 & Hn1 & Hr1 & Hc1 & He1).
    destruct (Hk a _ _ _ Hwf1 H) as (Hwf2 & Hn2 & Hr2 & Hc2 & He2).
    repeat split; [done | lia | set_solver | congruence |].
    intros h Hh Ht. rewrite He2 by (auto; lia). auto.
  - inversion H; subst. eauto.
Qed.

Lemma frames_except_alloc t e : frames_except t (alloc e).
Proof.
  intros w r w' Hwf H. pose proof H as H'. inversion H'; subst.
  destruct (alloc_spec e w _ _ Hwf H) as (_ & _ & He & Hn & Hr & Hs & Hc & Hwf').
  repeat split; simpl; auto.
  intros h Hh _. rewrite lookup_insert_ne by lia. done.
Qed.

Lemma frames_except_update t f h : h ∈ t -> frames_except t (update_element f h).
Proof.
  intros Hin w r w' Hwf H. unfold update_element, modify in H. inversion H; subst.
  repeat split; simpl; auto.
  - intros h' Hh'. apply Hwf. simpl in Hh'. rewrite lookup_alter_is_Some in Hh'. done.
  - intros h' _ Ht. rewrite lookup_alter_ne; [done|]. set_solver.
Qed.

Lemma frames_except_remove t h : frames_except t (remove h).
Proof.
  intros w r w' Hwf H. unfold remove, modify in H. inversion H; subst.
  repeat split; simpl; auto; set_solver.
Qed.

Lemma frames_except_mono {A} t t' (m : JSW A) :
  t ⊆ t' -> frames_except t m -> frames_except t' m.
Proof.
  intros Hs Hm w r w' Hwf H. destruct (Hm w r w' Hwf H) as (? & ? & ? & ? & He).
  repeat split; auto.
Qed.

#[export] Hint Resolve frames_except_ret frames_except_throw frames_except_lift
  frames_except_gets frames_except_bind frames_except_alloc frames_except_remove : dom.

(** A fresh element may be changed freely by the rest of the computation. *)
Lemma frames_except_alloc_bind {A} t e (k : nat -> JSW A) :
  (forall h, frames_except ({[h]} ∪ t) (k h)) -> frames_except t (bind (alloc e) k).
Proof.
  intros Hk w r w' Hwf H. unfold bind in H.
  destruct (alloc e w) as [[h|err] w1] eqn:E; [|by inversion E].
  destruct (alloc_spec e w h w1 Hwf E) as (-> & Hfree & He & Hn & Hr & Hs & Hc & Hwf1).
  destruct (Hk _ _ _ _ Hwf1 H) as (Hwf2 & Hn2 & Hr2 & Hc2 & He2).
  repeat split; [done | lia | rewrite <- Hr; done | congruence |].
  intros h' Hh' Ht. assert (h' <> next_handle w) by lia.
  rewrite He2 by (lia || set_solver). rewrite He, lookup_insert_ne by done. done.
Qed.

Lemma frames_except_forM_ {A} t (f : A -> JSW unit) xs :
  (forall x, frames_except t (f x)) -> frames_except t (forM_ f xs).
Proof. intros Hf. induction xs; simpl; auto with dom. Qed.

Lemma frames_except_setItem t k v : frames_except t (localStorage_setItem k v).
Proof.
  intros w r w' Hwf H. unfold localStorage_setItem, modify in H. inversion H; subst.
  repeat split; simpl; auto.
Qed.

#[export] Hint Resolve frames_except_alloc_bind frames_except_forM_ frames_except_setItem : dom.

(** ** Releasing elements *)

Lemma forM_remove_spec (xs : list nat) w :
  forM_ remove xs w = (Ok tt, release_all (list_to_set xs) w).
Proof.
  revert w. induction xs as [|x xs IH]; intros w; simpl.
  - unfold release_all. f_equal. destruct w; simpl. f_equal. set_solver.
  - unfold bind. simpl. rewrite IH. unfold release_all; simpl. do 2 f_equal. set_solver.
Qed.

Lemma frames_except_createObjectURL t : frames_except t createObjectURL.
Proof. intros w r w' Hwf H. inversion H; subst. repeat split; simpl; auto. Qed.

Lemma frames_except_mapM {A B} t (f : A -> JSW B) xs :
  (forall x, frames_except t (f x)) -> frames_except t (mapM f xs).
Proof. intros Hf. induction xs; simpl; auto with dom. Qed.

(** A computation whose only effect on the world is to allocate one new
    element. *)
Lemma frames_except_of_run {A} t (m : JSW A) :
  (forall w, exists r e, m w = (r, mkWorld (<[next_handle w := e]> (elements w)) (released w)
                                  (S (next_handle w)) (next_blob w) (storage w) (context_2d w))) ->
  frames_except t m.
Proof.
  intros Hm w r w' Hwf H. destruct (Hm w) as (r' & e & Hr). rewrite Hr in H.
  inversion H; subst. repeat split; simpl; auto.
  - unfold world_wf; simpl. intros h Hh. destruct (decide (h = next_handle w)) as [->|Hne]; [lia|].
    rewrite lookup_insert_ne in Hh by done. specialize (Hwf h Hh). lia.
  - intros h Hh _. apply lookup_insert_ne. lia.
Qed.

#[export] Hint Resolve frames_except_createObjectURL frames_except_mapM : dom.

