(* ===== verification/Button.v ===== *)
(** * Button: the button component

    Models [src/components/input/Button.tsx].  The component renders a
    [<button type='button'>] whose click listener is [handleClick]:
    [if (typeof onClick === 'function') onClick()].  The [onClick] prop is
    a JavaScript value ([JsValue]); calling a value that is not a function
    throws a [TypeError], which the [typeof] guard avoids.  The browser's
    part of a click ([click], from the HTML standard) runs the listener,
    reports an exception it throws instead of propagating it, and then runs
    the button's activation behaviour: a button of type [submit] with a
    form owner submits the form, a button of type [button] does nothing.

    The theorem shows that a click runs [onClick] exactly when it is a
    function (so an [undefined] [onClick] is never called and no
    [TypeError] is reported) and never submits a form. *)

From S2P Require Import Prelude Dom.

(** ** Values and elements *)

(** The JavaScript values a prop can hold, as far as [typeof] tells them
    apart; a function is the effect its call has. *)
Inductive JsValue : Type :=
| JFunction (call : JSW unit)
| JUndefined
| JNull
| JBoolean (b : bool)
| JString (s : string)
| JObject.

(** [typeof v] *)
Definition js_typeof (v : JsValue) : string :=
  match v with
  | JFunction _ => "function"
  | JUndefined => "undefined"
  | JNull | JObject => "object"
  | JBoolean _ => "boolean"
  | JString _ => "string"
  end.

(** [v()]: a call of a value that is not a function throws a
    [TypeError]. *)
Definition js_call (v : JsValue) : JSW unit :=
  match v with
  | JFunction f => f
  | _ => throw TypeError
  end.

(** A rendered [<button>]: its [type] attribute and its click listener. *)
Record ButtonElement := mkButtonElement {
  btn_type : string;
  btn_onclick : JSW unit
}.

(** ** The component *)

(** [handleClick] *)
Definition handleClick (onClick : JsValue) : JSW unit :=
  if String.eqb (js_typeof onClick) "function" then js_call onClick else ret tt.

(** The JSX of [Button]: [<button type='button' onClick={handleClick}>]. *)
Definition Button (onClick : JsValue) : ButtonElement :=
  mkButtonElement "button" (handleClick onClick).

(** ** The browser's click *)

(** A click on a button element with a form owner or not ([in_form]): the
    listener runs; an exception it throws is reported (the first
    component) and does not stop the activation behaviour, which submits
    the form (the second component) when the button is of type [submit]
    inside a form. *)
Definition click (b : ButtonElement) (in_form : bool) : JSW (option js_error * bool) :=
  fun w =>
    let '(r, w') := btn_onclick b w in
    let reported := match r with Ok _ => None | Throw e => Some e end in
    (Ok (reported, in_form && String.eqb (btn_type b) "submit"), w').

(** ** Theorems *)

(** C23. A click on a [Button] calls [onClick] exactly when it is a
    function: its effect on the page is the function's, and its reported
    exception the function's; any other value leaves the page unchanged
    and reports nothing.  In no case is an enclosing form submitted. *)
Theorem Button_click (onClick : JsValue) (in_form : bool) (w : World) :
  click (Button onClick) in_form w =
  match onClick with
  | JFunction f =>
      let '(r, w') := f w in
      (Ok (match r with Ok _ => None | Throw e => Some e end, false), w')
  | _ => (Ok (None, false), w)
  end.
Proof.
  unfold click, Button, handleClick.
  destruct in_form, onClick as [f| | | | |]; simpl; try done; by destruct (f w).
Qed.
