(* ===== verification/Store.v ===== *)
(** * Store: the application state and its reducer

    Models [src/components/app/Store.tsx]: the [State] record, the closed
    [Action] union, [initialState] and the reducer passed to [useReducer].
    The reducer runs in the [JS] monad over the [Dom] world because it is
    not pure: [setImage] and [setGif] call [remove()] on the elements the
    previous state held, [setImage] creates an [HTMLImageElement], and
    [markAdShown] writes [localStorage].  The [default] branch, which throws,
    is the constructor [invalidAction] (an object whose [type] is none of the
    listed ones).

    The theorems give the dirty flag after every action, the snap of
    [setAngle], the release of the previous source by [setImage]/[setGif],
    that what is drawn changes only together with the dirty flag, the throw
    of an invalid action, the [localStorage] round trip of the advert
    flag, and that for every state the reducer installs a [setGif] that
    breaks the specification's guard.  The reducer and [snap_angle] are
    [Proper] morphisms for numbers compared as values ([Qeq]).  [reducer_rerun]
    is React calling the reducer a second time for one update (development
    [StrictMode], or a replay of the update queue): it changes nothing for
    every action but [setImage], whose first run leaks an image element. *)

From S2P Require Import Prelude Dom.
From Stdlib Require Import QArith Lqa.

(** A JavaScript number (see the header of [Prelude]). *)
Abbreviation number := Q.

(** [FlagName] is a union of string literals declared in [~lib/flags]
    (not among the sources). *)
Abbreviation FlagName := string.

(** [a < b] on numbers. *)
Definition js_lt (a b : number) : bool := negb (Qle_bool b a).

(** [Boolean(localStorage.getItem(k))]: [null] and the empty string are
    [false], every other string [true]. *)
Definition js_Boolean_item (o : option string) : bool :=
  match o with
  | Some v => negb (String.eqb v "")
  | None => false
  end.

(** ** State *)

Record State := mkState {
  dirty : bool;
  quality : number;
  padding : number;
  angle : number;
  flag : FlagName;
  image : option nat;           (** [HTMLImageElement | null] *)
  frames : option (list nat);   (** [HTMLCanvasElement[] | null] *)
  delay : number;
  showEasterEgg : bool;
  saving : bool;
  advertOpen : bool;
  shownAdvert : bool
}.

(** The object spread [{ ...prevState, field: v }], one field at a time. *)
Definition set_dirty v s := mkState v (quality s) (padding s) (angle s) (flag s) (image s) (frames s) (delay s) (showEasterEgg s) (saving s) (advertOpen s) (shownAdvert s).
Definition set_quality v s := mkState (dirty s) v (padding s) (angle s) (flag s) (image s) (frames s) (delay s) (showEasterEgg s) (saving s) (advertOpen s) (shownAdvert s).
Definition set_padding v s := mkState (dirty s) (quality s) v (angle s) (flag s) (image s) (frames s) (delay s) (showEasterEgg s) (saving s) (advertOpen s) (shownAdvert s).
Definition set_angle v s := mkState (dirty s) (quality s) (padding s) v (flag s) (image s) (frames s) (delay s) (showEasterEgg s) (saving s) (advertOpen s) (shownAdvert s).
Definition set_flag v s := mkState (dirty s) (quality s) (padding s) (angle s) v (image s) (frames s) (delay s) (showEasterEgg s) (saving s) (advertOpen s) (shownAdvert s).
Definition set_image v s := mkState (dirty s) (quality s) (padding s) (angle s) (flag s) v (frames s) (delay s) (showEasterEgg s) (saving s) (advertOpen s) (shownAdvert s).
Definition set_frames v s := mkState (dirty s) (quality s) (padding s) (angle s) (flag s) (image s) v (delay s) (showEasterEgg s) (saving s) (advertOpen s) (shownAdvert s).
Definition set_delay v s := mkState (dirty s) (quality s) (padding s) (angle s) (flag s) (image s) (frames s) v (showEasterEgg s) (saving s) (advertOpen s) (shownAdvert s).
Definition set_showEasterEgg v s := mkState (dirty s) (quality s) (padding s) (angle s) (flag s) (image s) (frames s) (delay s) v (saving s) (advertOpen s) (shownAdvert s).
Definition set_saving v s := mkState (dirty s) (quality s) (padding s) (angle s) (flag s) (image s) (frames s) (delay s) (showEasterEgg s) v (advertOpen s) (shownAdvert s).
Definition set_advertOpen v s := mkState (dirty s) (quality s) (padding s) (angle s) (flag s) (image s) (frames s) (delay s) (showEasterEgg s) (saving s) v (shownAdvert s).
Definition set_shownAdvert v s := mkState (dirty s) (quality s) (padding s) (angle s) (flag s) (image s) (frames s) (delay s) (showEasterEgg s) (saving s) (advertOpen s) v.

(** [initialState]: [win] is [None] when [typeof window === 'undefined']
    (server-side rendering) and the [localStorage] contents otherwise.
    The [?? false] of the source never applies: [Boolean(...)] is never
    [null]. *)
Definition initialState (win : option (gmap string string)) : State :=
  mkState true 3 12 0 "Pastel" None None (-1) false false false
    (match win with
     | None => false
     | Some ls => js_Boolean_item (ls !! "shownAdvert")
     end).

(** ** Actions *)

Inductive Action : Type :=
| markClean
| setQuality (value : number)
| setPadding (value : number)
| setAngle (value : number)
| setFlag (value : FlagName)
| setImage (value : string)
| setGif (frames : list nat) (delay : number)
| toggleEasterEgg
| setSaving (value : bool)
| setAdShowing (value : bool)
| markAdShown
| invalidAction (type_ : string).

(** ** The reducer *)

(** The [setAngle] snap: a raw angle strictly between [-snap] and [snap]
    becomes [0]. *)
Definition snap_angle (raw : number) : number :=
  let snap := 0.25 in
  if js_lt (snap * -1) raw && js_lt raw snap then 0 else raw.

(** [prevState.image?.remove()] *)
Definition remove_opt (o : option nat) : JSW unit :=
  match o with Some h => remove h | None => ret tt end.

(** [prevState.image?.remove(); for (const frame of prevState?.frames ?? [])
    frame.remove()] *)
Definition release_source (prevState : State) : JSW unit :=
  do remove_opt (image prevState);
  forM_ remove (list_of_option (frames prevState)).

Definition reducer (prevState : State) (action : Action) : JSW State :=
  match action with
  | markClean => ret (set_dirty false prevState)
  | setQuality v => ret (set_quality v (set_dirty true prevState))
  | setPadding v => ret (set_padding v (set_dirty true prevState))
  | setAngle raw => ret (set_angle (snap_angle raw) (set_dirty true prevState))
  | setFlag v => ret (set_flag v (set_dirty true prevState))
  | setImage v =>
      do release_source prevState;
      do img <- new_Image;
      do set_src img v;
      ret (set_image (Some img) (set_delay (-1) (set_frames None (set_dirty true prevState))))
  | setGif fr d =>
      do release_source prevState;
      ret (set_delay d (set_frames (Some fr) (set_image None (set_dirty true prevState))))
  | toggleEasterEgg => ret (set_showEasterEgg (negb (showEasterEgg prevState)) prevState)
  | setSaving v => ret (set_saving v prevState)
  | setAdShowing v => ret (set_advertOpen v prevState)
  | markAdShown =>
      do localStorage_setItem "shownAdvert" "1";
      ret (set_shownAdvert true prevState)
  | invalidAction _ => throw (Error "Invalid Action")
  end.

(** React may call the reducer of [useReducer(reducer, initialState)] a
    second time for the same update, from the same previous state: under
    [StrictMode] in development it calls it, drops the result and calls it
    again, and it re-runs the updates of the queue when it rebases them.
    The effects of both calls happen; the state is the second call's. *)
Definition reducer_rerun (prevState : State) (action : Action) : JSW State :=
  do _ <- reducer prevState action;
  reducer prevState action.

(** ** What is drawn *)

(** The fields the external [drawFrame] paints from, as the contract of
    the paint routine lists them: [quality], [padding], [angle], [flag],
    the source ([image] or [frames]) and [delay]. *)
Record View := mkView {
  v_quality : number; v_padding : number; v_angle : number; v_flag : FlagName;
  v_image : option nat; v_frames : option (list nat); v_delay : number
}.

Definition view (s : State) : View :=
  mkView (quality s) (padding s) (angle s) (flag s) (image s) (frames s) (delay s).

(** The actions that change what is drawn. *)
Definition changes_picture (a : Action) : bool :=
  match a with
  | setQuality _ | setPadding _ | setAngle _ | setFlag _ | setImage _ | setGif _ _ => true
  | _ => false
  end.

Definition is_invalid (a : Action) : bool :=
  match a with invalidAction _ => true | _ => false end.

(** The element handles a state holds: its image and its frames. *)
Definition held (s : State) : list nat :=
  match image s with Some h => [h] | None => [] end ++ list_of_option (frames s).

(** The specification's [AppState] type: at most one source, a sequence
    of at least two frames with a positive delay, and the sentinel delay
    [-1] when no sequence is shown. *)
Definition state_wf (s : State) : bool :=
  match image s, frames s with
  | Some _, Some _ => false
  | _, Some fr => (2 <=? length fr)%nat && js_lt 0 (delay s)
  | _, None => Qeq_bool (delay s) (-1)
  end.

(** The specification's guard of its transitions: [setSequence] takes at
    least two frames and (by the invariant of a sequence) a positive
    delay; the other actions are unguarded. *)
Definition action_wf (a : Action) : bool :=
  match a with
  | setGif fr d => (2 <=? length fr)%nat && js_lt 0 d
  | _ => true
  end.

(** The element handles an action carries: the frames of [setGif]. *)
Definition action_handles (a : Action) : list nat :=
  match a with setGif fr _ => fr | _ => [] end.

(** ** Numbers up to their value

    Two JavaScript numbers are the same value when they are equal as
    rationals ([Qeq]); [1#2] and [2#4] are two representations of [0.5].
    [state_equiv] and [action_equiv] compare states and actions with their
    numbers up to [Qeq] and everything else up to equality. *)
Definition state_equiv (s1 s2 : State) : Prop :=
  dirty s1 = dirty s2 /\ quality s1 == quality s2 /\ padding s1 == padding s2 /\
  angle s1 == angle s2 /\ flag s1 = flag s2 /\ image s1 = image s2 /\
  frames s1 = frames s2 /\ delay s1 == delay s2 /\
  showEasterEgg s1 = showEasterEgg s2 /\ saving s1 = saving s2 /\
  advertOpen s1 = advertOpen s2 /\ shownAdvert s1 = shownAdvert s2.

Definition action_equiv (a1 a2 : Action) : Prop :=
  match a1, a2 with
  | setQuality v1, setQuality v2 | setPadding v1, setPadding v2
  | setAngle v1, setAngle v2 => v1 == v2
  | setGif f1 d1, setGif f2 d2 => f1 = f2 /\ d1 == d2
  | _, _ => a1 = a2
  end.

(** ** Lemmas on the reducer *)

Lemma js_lt_true a b : js_lt a b = true <-> a < b.
Proof.
  unfold js_lt. rewrite negb_true_iff. split; intros H.
  - apply Qnot_le_lt. intros Hle. apply Qle_bool_iff in Hle. congruence.
  - destruct (Qle_bool b a) eqn:E; [|done]. apply Qle_bool_iff in E.
    exfalso. by apply (Qlt_not_le a b).
Qed.

Lemma js_lt_spec a b : reflect (a < b) (js_lt a b).
Proof. apply iff_reflect. symmetry. apply js_lt_true. Qed.

Lemma release_source_spec s w :
  release_source s w = (Ok tt, release_all (list_to_set (held s)) w).
Proof.
  unfold release_source, held, bind. destruct (image s) as [h|]; simpl.
  - rewrite forM_remove_spec. unfold release_all. simpl. do 2 f_equal; set_solver.
  - rewrite forM_remove_spec. unfold release_all. simpl. do 2 f_equal; set_solver.
Qed.

(** The run of [setImage v]: the previous source is released, then a new
    image element with [src = v] is allocated. *)
Lemma reducer_setImage_run s v w :
  reducer s (setImage v) w =
  (Ok (set_image (Some (next_handle w)) (set_delay (-1) (set_frames None (set_dirty true s)))),
   mkWorld (<[next_handle w := ImageElement v]> (elements w))
           (list_to_set (held s) ∪ released w) (S (next_handle w)) (next_blob w)
           (storage w) (context_2d w)).
Proof.
  simpl. unfold bind. rewrite release_source_spec. simpl.
  unfold update_element, modify, set_elements, ret. simpl. by rewrite alter_insert_eq.
Qed.

Lemma reducer_setGif_run s fr d w :
  reducer s (setGif fr d) w =
  (Ok (set_delay d (set_frames (Some fr) (set_image None (set_dirty true s)))),
   release_all (list_to_set (held s)) w).
Proof. simpl. unfold bind. rewrite release_source_spec. done. Qed.

(** Marking handles released twice is marking them once. *)
Lemma release_all_twice hs w : release_all hs (release_all hs w) = release_all hs w.
Proof. unfold release_all. simpl. f_equal. set_solver. Qed.

(** The reducer changes the world only by allocating the new image of
    [setImage] and marking handles released: every element that existed
    before is unchanged. *)
Lemma release_source_frames t s : frames_except t (release_source s).
Proof.
  unfold release_source, remove_opt.
  apply frames_except_bind; [destruct (image s) |]; auto with dom.
Qed.

#[local] Hint Resolve release_source_frames : dom.

Lemma reducer_frames s a : frames_except ∅ (reducer s a).
Proof.
  destruct a; simpl; auto with dom.
  - apply frames_except_bind; [auto with dom | intros _].
    apply frames_except_alloc_bind. intros h.
    apply frames_except_bind; [apply frames_except_update; set_solver | auto with dom].
Qed.

Lemma js_lt_compat a1 a2 b1 b2 : a1 == a2 -> b1 == b2 -> js_lt a1 b1 = js_lt a2 b2.
Proof.
  intros Ha Hb. destruct (js_lt_spec a1 b1), (js_lt_spec a2 b2); try done;
    exfalso; [apply n | apply n]; [rewrite <- Ha, <- Hb | rewrite Ha, Hb]; done.
Qed.

#[export] Instance snap_angle_proper : Proper (Qeq ==> Qeq) snap_angle.
Proof.
  intros v1 v2 Hv. unfold snap_angle.
  rewrite (js_lt_compat (0.25 * -1) (0.25 * -1) v1 v2), (js_lt_compat v1 v2 0.25 0.25);
    try done. by destruct (_ && _).
Qed.

#[export] Instance state_equiv_equivalence : Equivalence state_equiv.
Proof.
  split.
  - intros s. repeat split; reflexivity.
  - intros s1 s2 (?&?&?&?&?&?&?&?&?&?&?&?). repeat split; by symmetry.
  - intros s1 s2 s3 (?&?&?&?&?&?&?&?&?&?&?&?) (?&?&?&?&?&?&?&?&?&?&?&?).
    repeat split; etransitivity; eassumption.
Qed.

#[export] Instance action_equiv_equivalence : Equivalence action_equiv.
Proof.
  split.
  - intros []; simpl; done.
  - intros [] []; simpl; intros H; try discriminate;
      try (by symmetry); destruct H; split; by symmetry.
  - intros x y z; destruct x, y; simpl; intros H; try discriminate;
      destruct z; simpl; intros H'; try discriminate; try congruence;
      try (etransitivity; eassumption).
    destruct H as [-> ?], H' as [-> ?]. split; [done | etransitivity; eassumption].
Qed.

Lemma reducer_equiv s1 s2 a1 a2 w :
  state_equiv s1 s2 -> action_equiv a1 a2 ->
  run_rel state_equiv (reducer s1 a1 w) (reducer s2 a2 w).
Proof.
  intros Hs Ha.
  assert (Hheld : held s1 = held s2).
  { destruct Hs as (_&_&_&_&_&Hi&Hf&_). unfold held. by rewrite Hi, Hf. }
  destruct a1, a2; simpl in Ha; try discriminate;
    match type of Ha with
    | @eq Action _ _ => injection Ha; intros; subst
    | _ /\ _ => destruct Ha as [-> Ha]
    | _ => idtac
    end;
    rewrite ?reducer_setImage_run, ?reducer_setGif_run, ?Hheld;
    split; simpl; try done; unfold state_equiv in *; simpl;
    intuition (first [done | congruence | by rewrite Ha]).
Qed.

(** The reducer releases only what the previous state held, keeps every
    element that existed, and the new state holds only handles the
    previous one held or handles allocated by this action. *)
Lemma reducer_changes s a w r w' :
  reducer s a w = (r, w') ->
  (next_handle w <= next_handle w')%nat /\ released w ⊆ released w' /\
  (forall h, (h < next_handle w)%nat -> elements w' !! h = elements w !! h) /\
  released w' ⊆ list_to_set (held s) ∪ released w /\
  (forall s', r = Ok s' -> forall h, h ∈ held s' ->
     h ∈ held s \/ h ∈ action_handles a \/ (next_handle w <= h)%nat).
Proof.
  destruct a; rewrite ?reducer_setImage_run, ?reducer_setGif_run; simpl;
    intros Hr; inversion Hr; subst; simpl;
    (split; [lia | split; [set_solver | split; [| split; [set_solver |]]]]);
    try (intros s' [= <-]); try done; try (intros s' Hs; discriminate).
  all: try (intros h Hh; rewrite lookup_insert_ne; [done | lia]).
  all: intros h Hh; unfold held in Hh |- *; simpl in *; set_unfold; naive_solver lia.
Qed.

#[export] Instance reducer_proper :
  Proper (state_equiv ==> action_equiv ==> eq ==> run_rel state_equiv) reducer.
Proof. intros s1 s2 Hs a1 a2 Ha w ? <-. by apply reducer_equiv. Qed.

(** ** Theorems on the store *)

(** C28. Only an invalid action is rejected: every action of the union
    succeeds, and an object whose [type] is not in the union throws
    [Error('Invalid Action')] without changing the world. *)
Theorem reducer_rejects_only_invalid (s : State) (a : Action) (w : World) :
  (is_invalid a = false -> exists s' w', reducer s a w = (Ok s', w')) /\
  (is_invalid a = true -> reducer s a w = (Throw (Error "Invalid Action"), w)).
Proof.
  split; intros Ha.
  - destruct a; try discriminate; eauto.
    + rewrite reducer_setImage_run. eauto.
    + rewrite reducer_setGif_run. eauto.
  - by destruct a.
Qed.

Lemma reducer_dirty_value (s : State) (a : Action) (w : World) s' w' :
  reducer s a w = (Ok s', w') ->
  dirty s' = match a with
             | markClean => false
             | _ => if changes_picture a then true else dirty s
             end.
Proof.
  intros H. destruct a;
    rewrite ?reducer_setImage_run, ?reducer_setGif_run in H;
    simpl in H; inversion H; subst; reflexivity.
Qed.

Lemma reducer_view_or_dirty (s : State) (a : Action) (w : World) s' w' :
  reducer s a w = (Ok s', w') -> view s' = view s \/ dirty s' = true.
Proof.
  intros H. pose proof (reducer_dirty_value s a w s' w' H) as Hd.
  destruct a; simpl in Hd; auto; left;
    rewrite ?reducer_setImage_run, ?reducer_setGif_run in H;
    simpl in H; inversion H; subst; reflexivity.
Qed.

(** C6. The dirty flag after every action: [markClean] clears it, the six
    actions that change the picture set it, and the others keep it. *)
Theorem reducer_dirty (s : State) (a : Action) (w : World) s' w' :
  reducer s a w = (Ok s', w') ->
  dirty s' = match a with
             | markClean => false
             | _ => if changes_picture a then true else dirty s
             end.
Proof. apply reducer_dirty_value. Qed.

(** C5. Nothing that is drawn changes while the state stays clean: after
    any action, either the drawn fields are those of the previous state or
    the state is dirty. *)
Theorem reducer_picture_needs_dirty (s : State) (a : Action) (w : World) s' w' :
  reducer s a w = (Ok s', w') -> view s' = view s \/ dirty s' = true.
Proof. apply reducer_view_or_dirty. Qed.

(** C27. [setAngle] snaps every raw angle strictly between [-0.25] and
    [0.25] to [0] and stores any other angle as it is. *)
Theorem setAngle_snap (s : State) (v : number) (w : World) :
  exists s', reducer s (setAngle v) w = (Ok s', w) /\
    (-0.25 < v < 0.25 -> angle s' = 0) /\
    (~ (-0.25 < v < 0.25) -> angle s' = v).
Proof.
  eexists. split; [reflexivity |]. simpl. unfold snap_angle.
  destruct (js_lt_spec (0.25 * -1) v), (js_lt_spec v 0.25); simpl;
    split; intros H; auto; exfalso; [apply H; split; lra | ..]; lra.
Qed.

(** C12. [setImage v] releases every element the previous state held
    (its image and all its frames) and installs a new image element,
    fresh, with [src = v], as the only source: no frames, delay [-1]. *)
Theorem setImage_releases_and_installs (s : State) (v : string) (w : World) s' w' :
  world_wf w -> reducer s (setImage v) w = (Ok s', w') ->
  (forall h, h ∈ held s -> h ∈ released w') /\
  exists img, image s' = Some img /\ frames s' = None /\ delay s' = -1 /\
    elements w !! img = None /\ elements w' !! img = Some (ImageElement v).
Proof.
  intros Hwf H. rewrite reducer_setImage_run in H. inversion H; subst; simpl.
  split; [set_solver |]. eexists. repeat split; [| by rewrite lookup_insert_eq].
  destruct (elements w !! next_handle w) eqn:E; [|done].
  specialize (Hwf (next_handle w) ltac:(by rewrite E)). lia.
Qed.

(** C13. [setGif frames delay] releases every element the previous state
    held and installs the frames and their delay as the only source. *)
Theorem setGif_releases_and_installs (s : State) fr d (w : World) s' w' :
  reducer s (setGif fr d) w = (Ok s', w') ->
  (forall h, h ∈ held s -> h ∈ released w') /\
  image s' = None /\ frames s' = Some fr /\ delay s' = d /\ held s' = fr.
Proof.
  intros H. rewrite reducer_setGif_run in H. inversion H; subst; simpl.
  split; [set_solver | done].
Qed.

(** C31. The advert flag survives a reload: after [markAdShown] the state
    has [shownAdvert], and the [initialState] of the next session, read from
    the [localStorage] it wrote, has it too. *)
Theorem markAdShown_persists (s : State) (w : World) s' w' :
  reducer s markAdShown w = (Ok s', w') ->
  shownAdvert s' = true /\ shownAdvert (initialState (Some (storage w'))) = true.
Proof.
  simpl. intros H. inversion H; subst. simpl. by rewrite lookup_insert_eq.
Qed.

(** C29. The reducer preserves the state's type: from a well-formed state,
    every action that satisfies the specification's guard gives a
    well-formed state. *)
Theorem reducer_preserves_wf (s : State) (a : Action) (w : World) s' w' :
  state_wf s = true -> action_wf a = true -> reducer s a w = (Ok s', w') ->
  state_wf s' = true.
Proof.
  intros Hs Ha Hr. destruct a;
    rewrite ?reducer_setImage_run, ?reducer_setGif_run in Hr; simpl in Hr;
    inversion Hr; subst; unfold state_wf in *; simpl in *; done.
Qed.


(** C15. Running the reducer a second time on the same update, as React
    may do, changes nothing for every action but [setImage]: the same
    outcome and the same world.  The release of [setGif] marks the same
    handles again and [markAdShown] writes the same [localStorage] entry
    again. *)
Theorem reducer_rerun_same (s : State) (a : Action) (w : World) :
  (forall v, a <> setImage v) -> reducer_rerun s a w = reducer s a w.
Proof.
  intros Ha. unfold reducer_rerun, bind.
  destruct a; try (by edestruct Ha); try done.
  - rewrite !reducer_setGif_run. by rewrite release_all_twice.
  - simpl. unfold localStorage_setItem, modify, bind, ret. simpl. by rewrite insert_insert_eq.
Qed.

(** C14. A second run of [setImage] leaks an image element: the state holds
    the image of the second run, and the image the first run created (with
    the same [src]) is alive, not released and held by no state, so no
    later [setImage] or [setGif] releases it. *)
Theorem reducer_rerun_setImage_leaks (s : State) (v : string) (w : World) :
  (forall h, h ∈ released w -> (h < next_handle w)%nat) ->
  (forall h, h ∈ held s -> (h < next_handle w)%nat) ->
  exists s' w', reducer_rerun s (setImage v) w = (Ok s', w') /\
    image s' = Some (S (next_handle w)) /\
    elements w' !! next_handle w = Some (ImageElement v) /\
    next_handle w ∉ released w' /\ next_handle w ∉ held s'.
Proof.
  intros Hw Hs. unfold reducer_rerun, bind. rewrite !reducer_setImage_run.
  eexists _, _. split; [reflexivity |]. simpl. repeat split.
  - rewrite lookup_insert_ne by lia. by rewrite lookup_insert_eq.
  - rewrite !elem_of_union, elem_of_list_to_set.
    intros [Hh | [Hh | Hh]]; [apply Hs in Hh | apply Hs in Hh | apply Hw in Hh]; lia.
  - unfold held. simpl. rewrite list_elem_of_singleton. lia.
Qed.

(** ** Witnesses *)

Lemma reducer_rejects_only_invalid_witness :
  (exists s' w', reducer (initialState None) (setQuality 5) empty_world = (Ok s', w')) /\
  reducer (initialState None) (invalidAction "setSpeed") empty_world =
    (Throw (Error "Invalid Action"), empty_world).
Proof.
  split.
  - apply (reducer_rejects_only_invalid (initialState None) (setQuality 5) empty_world).
    reflexivity.
  - apply (reducer_rejects_only_invalid (initialState None) (invalidAction "setSpeed") empty_world).
    reflexivity.
Defined.

Lemma reducer_dirty_witness :
  dirty (set_dirty false (initialState None)) = false.
Proof.
  exact (reducer_dirty (initialState None) markClean empty_world _ _ eq_refl).
Defined.

Lemma reducer_picture_needs_dirty_witness :
  view (set_saving true (initialState None)) = view (initialState None) \/
  dirty (set_saving true (initialState None)) = true.
Proof.
  exact (reducer_picture_needs_dirty (initialState None) (setSaving true) empty_world _ _ eq_refl).
Defined.

(** The examples of the contract: [setAngle(0.1)] and [setAngle(-0.2)]
    store [0], [setAngle(0.3)] stores [0.3]. *)
Lemma setAngle_snap_witness :
  angle (set_angle (snap_angle 0.1) (set_dirty true (initialState None))) = 0 /\
  angle (set_angle (snap_angle (-0.2)) (set_dirty true (initialState None))) = 0 /\
  angle (set_angle (snap_angle 0.3) (set_dirty true (initialState None))) = 0.3.
Proof.
  destruct (setAngle_snap (initialState None) 0.1 empty_world) as (s1 & H1 & Hin1 & _).
  destruct (setAngle_snap (initialState None) (-0.2) empty_world) as (s2 & H2 & Hin2 & _).
  destruct (setAngle_snap (initialState None) 0.3 empty_world) as (s3 & H3 & _ & Hout3).
  simpl in H1, H2, H3. injection H1 as <-. injection H2 as <-. injection H3 as <-.
  split; [apply Hin1 | split; [apply Hin2 | apply Hout3]]; vm_compute.
  - split; reflexivity.
  - split; reflexivity.
  - intros [_ H]. discriminate H.
Defined.

Lemma setImage_releases_and_installs_witness :
  exists img, image (set_image (Some 0%nat) (set_delay (-1) (set_frames None (set_dirty true (initialState None))))) = Some img /\
    elements (mkWorld {[0%nat := ImageElement "blob:0"]} ∅ 1 0 ∅ true) !! img = Some (ImageElement "blob:0").
Proof.
  destruct (setImage_releases_and_installs (initialState None) "blob:0" empty_world _ _
              ltac:(apply (bool_decide_unpack _); vm_compute; reflexivity) eq_refl)
    as (_ & img & Himg & _ & _ & _ & Hel).
  exists img. split; [exact Himg | exact Hel].
Defined.

Lemma setGif_releases_and_installs_witness :
  frames (set_delay 100 (set_frames (Some [1%nat; 2%nat]) (set_image None
            (set_dirty true (set_image (Some 0%nat) (initialState None)))))) = Some [1%nat; 2%nat] /\
  (0%nat ∈ released (release_all {[0%nat]} empty_world)).
Proof.
  destruct (setGif_releases_and_installs (set_image (Some 0%nat) (initialState None))
              [1%nat; 2%nat] 100 empty_world _ _ eq_refl) as (Hrel & _ & Hfr & _).
  split; [exact Hfr |].
  refine (eq_rect _ (fun w => 0%nat ∈ released w) (Hrel 0%nat _) _ _).
  - apply list_elem_of_here.
  - unfold release_all. simpl. f_equal.
Defined.

Lemma markAdShown_persists_witness :
  shownAdvert (initialState (Some (<["shownAdvert" := "1"]> ∅))) = true.
Proof.
  exact (proj2 (markAdShown_persists (initialState None) empty_world _ _ eq_refl)).
Defined.

Lemma reducer_preserves_wf_witness :
  state_wf (set_delay 100 (set_frames (Some [1%nat; 2%nat]) (set_image None
              (set_dirty true (initialState None))))) = true.
Proof.
  apply (reducer_preserves_wf (initialState None) (setGif [1%nat; 2%nat] 100) empty_world _
           (release_all (list_to_set (held (initialState None))) empty_world));
    [reflexivity | reflexivity | apply reducer_setGif_run].
Defined.

Lemma reducer_rerun_same_witness :
  reducer_rerun (initialState None) markAdShown empty_world =
  reducer (initialState None) markAdShown empty_world.
Proof. apply reducer_rerun_same. intros v; discriminate. Defined.

Lemma reducer_rerun_setImage_leaks_witness :
  exists s' w', reducer_rerun (initialState None) (setImage "blob:0") empty_world = (Ok s', w') /\
    image s' = Some 1%nat /\ elements w' !! 0%nat = Some (ImageElement "blob:0") /\
    0%nat ∉ released w' /\ 0%nat ∉ held s'.
Proof.
  apply (reducer_rerun_setImage_leaks (initialState None) "blob:0" empty_world).
  - intros h Hh. vm_compute in Hh. set_solver.
  - intros h Hh. vm_compute in Hh. set_solver.
Defined.

