(* ===== verification/Load.v ===== *)
(** * Load: decoding a dropped file into a source

    Models [src/lib/load.ts]: [loadImage(dispatch, file)].  Its first part
    runs synchronously ([loadImage_start]): a file that is not
    [image/gif] is dispatched at once as [setImage] with a blob URL.  For a
    GIF the function suspends on [await file.arrayBuffer()]; the rest
    ([loadImage_resume]) runs when the buffer arrives: it parses the GIF
    with gifuct-js, ignores a GIF without frames, dispatches a one-frame GIF
    as [setImage], and otherwise builds one canvas per decoded frame
    ([build_frame], the callback of [decoded.map]) and dispatches
    [setGif] with the canvases and the first frame's delay.

    gifuct-js is a library, not code of the repository: [parseGIF] and
    [decompressFrames] are the two methods of the class [GifLib], and the
    theorems hold for every instance.  The dispatches are returned as a list
    of actions, in the order of the [dispatch] calls.

    The theorems give every branch of the loader, the exceptions it throws
    (all-or-nothing: a throw dispatches nothing), that every frame
    rectangle is accepted and clipped, the pixels of each frame canvas,
    and compare them with the compositing decoder of the specification
    ([composite_frames]): equal for full-screen frames, and for every GIF
    different outside a later frame's rectangle. *)

From S2P Require Import Prelude Dom Store.
From Stdlib Require Import QArith.

Local Open Scope Z_scope.

(** ** What gifuct-js returns *)

(** [frame.dims]: the frame's rectangle in the logical screen. *)
Record Dims := mkDims { d_width : Z; d_height : Z; d_top : Z; d_left : Z }.

(** A decoded frame ([decompressFrames(gif, true)] element): its RGBA
    [patch] (the pixels of its rectangle only), its rectangle and its
    delay in milliseconds. *)
Record ParsedFrame := mkParsedFrame { patch : list Z; dims : Dims; fdelay : number }.

(** [gif.lsd]: the logical screen descriptor.  The rest of the parsed GIF
    ([gif_body], its blocks) is read only by [decompressFrames]. *)
Record Lsd := mkLsd { lsd_width : Z; lsd_height : Z }.
Record ParsedGif := mkParsedGif { lsd : Lsd; gif_body : list Z }.

Class GifLib := {
  parseGIF : list Z -> Result ParsedGif;
  decompressFrames : ParsedGif -> bool -> Result (list ParsedFrame)
}.

(** A dropped [File]: its MIME type and its bytes. *)
Record File := mkFile { ftype : string; fbytes : list Z }.

(** Where [loadImage] stands when its synchronous part returns. *)
Inductive LoadStep : Type :=
| Finished (dispatched : list Action)   (** returned; these were dispatched *)
| AwaitingBuffer (file : File).         (** suspended on [file.arrayBuffer()] *)

Section Loader.
Context `{GifLib}.

(** The callback of [decoded.map]: a canvas of the logical screen's size
    holding the frame's patch at the frame's offset. *)
Definition build_frame (gif : ParsedGif) (f : ParsedFrame) : JSW nat :=
  do canvas <- createElement_canvas;
  do set_canvas_width canvas (lsd_width (lsd gif));
  do set_canvas_height canvas (lsd_height (lsd gif));
  do ctx <- getContext_2d canvas;
  match ctx with
  | None => throw (Error "oh no")
  | Some c =>
      do data <- lift (new_ImageData (patch f) (d_width (dims f)) (d_height (dims f)));
      do putImageData_on c data (d_left (dims f)) (d_top (dims f));
      ret canvas
  end.

(** The part of [loadImage] before [await file.arrayBuffer()]. *)
Definition loadImage_start (file : File) : JSW LoadStep :=
  if negb (String.eqb (ftype file) "image/gif") then
    do url <- createObjectURL; ret (Finished [setImage url])
  else ret (AwaitingBuffer file).

(** The part of [loadImage] after the buffer arrived. *)
Definition loadImage_resume (file : File) : JSW (list Action) :=
  do gif <- lift (parseGIF (fbytes file));
  do decoded <- lift (decompressFrames gif true);
  match decoded with
  | [] => ret []
  | [_] => do url <- createObjectURL; ret [setImage url]
  | d0 :: _ =>
      do frames <- mapM (build_frame gif) decoded;
      ret [setGif frames (fdelay d0)]
  end.
End Loader.

(** ** The picture of each frame *)

(** The bitmap [build_frame] leaves in its canvas, or the exception of
    [new ImageData]. *)
Definition frame_bitmap (gif : ParsedGif) (f : ParsedFrame) : Result Bitmap :=
  match new_ImageData (patch f) (d_width (dims f)) (d_height (dims f)) with
  | Ok data => Ok (putImageData (blank_bitmap (lsd_width (lsd gif)) (lsd_height (lsd gif)))
                                data (d_left (dims f)) (d_top (dims f)))
  | Throw e => Throw e
  end.

(** The bitmaps of all frames, or the first exception. *)
Fixpoint frame_bitmaps (gif : ParsedGif) (fs : list ParsedFrame) : Result (list Bitmap) :=
  match fs with
  | [] => Ok []
  | f :: fs' =>
      match frame_bitmap gif f, frame_bitmaps gif fs' with
      | Ok b, Ok bs => Ok (b :: bs)
      | Throw e, _ => Throw e
      | Ok _, Throw e => Throw e
      end
  end.

(** ** The decoder of the specification

    The specification describes a compositing decoder: one persistent
    canvas of the logical screen's size; each frame's patch is painted onto
    it and the frame's output is a copy of it, so that frame [i] shows
    every patch of frames [0..i].  This is the reference the loader is
    compared with; it is not code of the repository. *)
Fixpoint composite_from (gif : ParsedGif) (acc : Bitmap) (fs : list ParsedFrame)
  : Result (list Bitmap) :=
  match fs with
  | [] => Ok []
  | f :: fs' =>
      match new_ImageData (patch f) (d_width (dims f)) (d_height (dims f)) with
      | Throw e => Throw e
      | Ok data =>
          let acc' := putImageData acc data (d_left (dims f)) (d_top (dims f)) in
          match composite_from gif acc' fs' with
          | Ok bs => Ok (acc' :: bs)
          | Throw e => Throw e
          end
      end
  end.

Definition composite_frames (gif : ParsedGif) (fs : list ParsedFrame) : Result (list Bitmap) :=
  composite_from gif (blank_bitmap (lsd_width (lsd gif)) (lsd_height (lsd gif))) fs.

(** A frame whose rectangle is the whole logical screen. *)
Definition full_frame (gif : ParsedGif) (f : ParsedFrame) : Prop :=
  dims f = mkDims (lsd_width (lsd gif)) (lsd_height (lsd gif)) 0 0.

(** The canvases [decoded.map(build_frame)] allocates: the [i]-th bitmap
    under the handle [n + i]. *)
Fixpoint install_canvases (n : nat) (bs : list Bitmap) (es : gmap nat Element)
  : gmap nat Element :=
  match bs with
  | [] => es
  | b :: bs' => install_canvases (S n) bs' (<[n := CanvasElement b]> es)
  end.

(** The result of [decoded.map(build_frame)]: the handles of the new
    canvases, or the first exception. *)
Definition frames_result (w : World) (gif : ParsedGif) (fs : list ParsedFrame)
  : Result (list nat) :=
  match fs with
  | [] => Ok []
  | _ =>
      if context_2d w then
        match frame_bitmaps gif fs with
        | Ok bs => Ok (seq (next_handle w) (length bs))
        | Throw e => Throw e
        end
      else Throw (Error "oh no")
  end.

(** A two-frame GIF on a 2 x 1 screen: a red full frame, then a blue
    1 x 1 patch at the right. *)
Definition two_frame_gif : ParsedGif := mkParsedGif (mkLsd 2 1) [].
Definition two_frame_frames : list ParsedFrame :=
  [mkParsedFrame [255; 0; 0; 255; 255; 0; 0; 255] (mkDims 2 1 0 0) 100;
   mkParsedFrame [0; 0; 255; 255] (mkDims 1 1 0 1) 100].

(** A gifuct-js that parses any bytes to [two_frame_gif] and decodes the
    given frames. *)
Definition lib_with (fs : list ParsedFrame) : GifLib :=
  {| parseGIF := fun _ => Ok two_frame_gif; decompressFrames := fun _ _ => Ok fs |}.

Definition gif_file : File := mkFile "image/gif" [71; 73; 70].

(** Two frames whose first delay is [0]. *)
Definition zero_delay_frames : list ParsedFrame :=
  [mkParsedFrame [255; 0; 0; 255; 255; 0; 0; 255] (mkDims 2 1 0 0) 0;
   mkParsedFrame [0; 0; 255; 255] (mkDims 1 1 0 1) 0].

(** Two frames, the second with a 3-byte patch. *)
Definition bad_patch_frames : list ParsedFrame :=
  [mkParsedFrame [255; 0; 0; 255; 255; 0; 0; 255] (mkDims 2 1 0 0) 100;
   mkParsedFrame [0; 0; 255] (mkDims 1 1 0 1) 100].

(** A 2 x 1 patch placed at [x = 1] on a 2-pixel-wide screen: its second
    pixel falls outside and is dropped. *)
Definition overhanging_frame : ParsedFrame :=
  mkParsedFrame [0; 255; 0; 255; 0; 0; 255; 255] (mkDims 2 1 0 1) 100.


(** ** Lemmas on the loader *)

Lemma build_frame_run gif f w :
  build_frame gif f w =
  (let n := next_handle w in
   let wc b := mkWorld (<[n := CanvasElement b]> (elements w)) (released w) (S n)
                       (next_blob w) (storage w) (context_2d w) in
   let blank := blank_bitmap (lsd_width (lsd gif)) (lsd_height (lsd gif)) in
   if context_2d w then
     match frame_bitmap gif f with
     | Ok b => (Ok n, wc b)
     | Throw e => (Throw e, wc blank)
     end
   else (Throw (Error "oh no"), wc blank)).
Proof.
  unfold build_frame, createElement_canvas, alloc, bind, set_canvas_width, set_canvas_height,
    update_element, modify, set_elements, getContext_2d, gets, frame_bitmap; simpl.
  rewrite !alter_insert_eq, lookup_insert_eq. simpl.
  destruct (context_2d w); simpl; [|reflexivity].
  destruct (new_ImageData _ _ _); simpl; [|reflexivity].
  unfold ret, set_elements; simpl. by rewrite alter_insert_eq.
Qed.

(** When every frame builds, [decoded.map(build_frame)] returns the
    handles [n, n+1, ...] and installs the frames' bitmaps under them. *)
Lemma mapM_build_frame_ok gif fs w bs :
  context_2d w = true -> frame_bitmaps gif fs = Ok bs ->
  mapM (build_frame gif) fs w =
  (Ok (seq (next_handle w) (length bs)),
   mkWorld (install_canvases (next_handle w) bs (elements w)) (released w)
           (next_handle w + length bs) (next_blob w) (storage w) (context_2d w)).
Proof.
  revert w bs. induction fs as [|f fs IH]; intros w bs Hc Hbs; simpl in Hbs.
  - inversion Hbs; subst. simpl. rewrite Nat.add_0_r. by destruct w.
  - destruct (frame_bitmap gif f) as [b|e] eqn:Ef; [|done].
    destruct (frame_bitmaps gif fs) as [bs'|e] eqn:Efs; [|done].
    inversion Hbs; subst. simpl. unfold bind. rewrite build_frame_run, Hc, Ef. simpl.
    rewrite (IH _ bs') by done. simpl. do 3 f_equal. lia.
Qed.

Lemma mapM_build_frame_throw gif fs w e :
  context_2d w = true -> frame_bitmaps gif fs = Throw e ->
  fst (mapM (build_frame gif) fs w) = Throw e.
Proof.
  revert w. induction fs as [|f fs IH]; intros w Hc Ebs; simpl in Ebs; [done|].
  simpl. unfold bind. rewrite build_frame_run, Hc. simpl.
  destruct (frame_bitmap gif f) as [b|e'] eqn:Ef; simpl; [|by inversion Ebs].
  destruct (frame_bitmaps gif fs) as [bs|e'] eqn:Efs; [done|].
  inversion Ebs; subst.
  match goal with
  | |- context [mapM (build_frame gif) fs ?w1] =>
      specialize (IH w1 eq_refl eq_refl); destruct (mapM (build_frame gif) fs w1) as [[r|e''] w'']
  end; simpl in *; congruence.
Qed.

(** Otherwise it throws: [Error('oh no')] without a 2d context, else the
    first exception of [new ImageData]. *)
Lemma mapM_build_frame_fst gif fs w :
  fst (mapM (build_frame gif) fs w) = frames_result w gif fs.
Proof.
  unfold frames_result. destruct fs as [|f0 fs0]; [done|].
  destruct (context_2d w) eqn:Hc.
  - destruct (frame_bitmaps gif (f0 :: fs0)) as [bs|e] eqn:Ebs.
    + by rewrite (mapM_build_frame_ok _ _ _ bs Hc Ebs).
    + by apply mapM_build_frame_throw.
  - simpl. unfold bind. by rewrite build_frame_run, Hc.
Qed.

Lemma install_canvases_lookup_lt n bs es h :
  (h < n)%nat -> install_canvases n bs es !! h = es !! h.
Proof.
  revert n es. induction bs as [|b bs IH]; intros n es Hh; simpl; [done|].
  rewrite IH by lia. apply lookup_insert_ne. lia.
Qed.

Lemma install_canvases_lookup_new n bs es i b :
  bs !! i = Some b -> install_canvases n bs es !! (n + i)%nat = Some (CanvasElement b).
Proof.
  revert n es i. induction bs as [|b0 bs IH]; intros n es i Hi; [done|].
  destruct i as [|i]; simpl in Hi |- *.
  - inversion Hi; subst. rewrite install_canvases_lookup_lt by lia.
    rewrite Nat.add_0_r. apply lookup_insert_eq.
  - replace (n + S i)%nat with (S n + i)%nat by lia. by apply IH.
Qed.

(** Building frames only allocates canvases: nothing is released and
    [localStorage] is untouched. *)
Lemma mapM_build_frame_keeps gif fs w r w' :
  mapM (build_frame gif) fs w = (r, w') ->
  released w' = released w /\ storage w' = storage w.
Proof.
  revert w r w'. induction fs as [|f fs IH]; intros w r w' H; simpl in H.
  - by inversion H.
  - unfold bind in H. rewrite build_frame_run in H. simpl in H.
    destruct (context_2d w); [destruct (frame_bitmap gif f)|]; simpl in H;
      [| by inversion H..].
    destruct (mapM _ fs _) as [[ys|e] w1] eqn:Em; apply IH in Em as [Hr Hs];
      inversion H; subst; simpl in *; split; congruence.
Qed.

Lemma build_frame_frames gif f : frames_except ∅ (build_frame gif f).
Proof.
  apply frames_except_of_run. intros w. rewrite build_frame_run. simpl.
  destruct (context_2d w); [destruct (frame_bitmap gif f)|]; eauto.
Qed.

#[export] Hint Resolve build_frame_frames : dom.

Section LoaderTheorems.
Context `{GifLib}.

Lemma loadImage_resume_frames file : frames_except ∅ (loadImage_resume file).
Proof.
  unfold loadImage_resume. apply frames_except_bind; [auto with dom | intros gif].
  apply frames_except_bind; [auto with dom | intros [|d0 [|d1 ds]]]; auto with dom.
Qed.
Lemma loadImage_resume_run file w gif decoded :
  parseGIF (fbytes file) = Ok gif -> decompressFrames gif true = Ok decoded ->
  loadImage_resume file w =
  match decoded with
  | [] => (Ok [], w)
  | [_] => bind createObjectURL (fun url => ret [setImage url]) w
  | d0 :: _ =>
      match mapM (build_frame gif) decoded w with
      | (Ok fr, w') => (Ok [setGif fr (fdelay d0)], w')
      | (Throw e, w') => (Throw e, w')
      end
  end.
Proof.
  intros Hp Hd. unfold loadImage_resume, bind at 1. simpl. rewrite Hp.
  unfold bind at 1. simpl. rewrite Hd. destruct decoded as [|d0 [|d1 ds]]; try done.
Qed.

(** C17. A GIF with no frame is ignored: nothing is dispatched and the
    world is unchanged.  A GIF with one frame is dispatched as a still
    image ([setImage] with a blob URL), never as a frame sequence. *)
Theorem loadImage_resume_at_most_one_frame file w gif decoded :
  parseGIF (fbytes file) = Ok gif -> decompressFrames gif true = Ok decoded ->
  (length decoded <= 1)%nat ->
  exists acts w', loadImage_resume file w = (Ok acts, w') /\
    (decoded = [] -> acts = [] /\ w' = w) /\
    (length decoded = 1%nat -> exists url, acts = [setImage url]).
Proof.
  intros Hp Hd Hlen. rewrite (loadImage_resume_run _ _ _ _ Hp Hd).
  destruct decoded as [|d0 [|d1 ds]]; simpl in Hlen; try lia.
  - do 2 eexists. split; [reflexivity |]. split; [done | discriminate].
  - do 2 eexists. split; [reflexivity |]. split; [discriminate | eauto].
Qed.

(** C16. A GIF with two frames or more whose frames all build is
    dispatched as one [setGif]: one new canvas per decoded frame, in
    order, each holding the bitmap [frame_bitmap] gives for its frame, and
    the delay of the first frame, whatever its value (it is not checked
    to be positive). *)
Theorem loadImage_resume_sequence file w gif d0 d1 ds bs :
  world_wf w ->
  parseGIF (fbytes file) = Ok gif -> decompressFrames gif true = Ok (d0 :: d1 :: ds) ->
  context_2d w = true -> frame_bitmaps gif (d0 :: d1 :: ds) = Ok bs ->
  exists hs w', loadImage_resume file w = (Ok [setGif hs (fdelay d0)], w') /\
    length hs = length (d0 :: d1 :: ds) /\ NoDup hs /\
    forall i h b, hs !! i = Some h -> bs !! i = Some b ->
      elements w !! h = None /\ elements w' !! h = Some (CanvasElement b).
Proof.
  intros Hwf Hp Hd Hc Hbs. rewrite (loadImage_resume_run _ _ _ _ Hp Hd).
  rewrite (mapM_build_frame_ok _ _ _ _ Hc Hbs).
  do 2 eexists. split; [reflexivity |].
  pose proof (mapM_length (build_frame gif) _ w _ _
                (mapM_build_frame_ok _ _ _ _ Hc Hbs)) as Hlen.
  rewrite length_seq in Hlen. split; [by rewrite length_seq | split; [apply NoDup_seq |]].
  intros i h b Hh Hb. apply lookup_seq in Hh as [-> Hi]. split.
  - destruct (elements w !! (next_handle w + i)%nat) eqn:E; [|done].
    specialize (Hwf _ ltac:(by rewrite E)). lia.
  - simpl. by apply install_canvases_lookup_new.
Qed.

(** C18. All or nothing: when a GIF of two frames or more has a frame
    that does not build (no 2d context, or a patch whose length does not
    match its rectangle), [loadImage] throws, dispatches nothing, and
    leaves every element that existed before unchanged (only the
    unreferenced canvases it had allocated remain). *)
Theorem loadImage_resume_all_or_nothing file w gif d0 d1 ds :
  world_wf w ->
  parseGIF (fbytes file) = Ok gif -> decompressFrames gif true = Ok (d0 :: d1 :: ds) ->
  (context_2d w = false \/ exists e, frame_bitmaps gif (d0 :: d1 :: ds) = Throw e) ->
  exists e w', loadImage_resume file w = (Throw e, w') /\
    released w' = released w /\ storage w' = storage w /\
    forall h, (h < next_handle w)%nat -> elements w' !! h = elements w !! h.
Proof.
  intros Hwf Hp Hd Hfail.
  destruct (loadImage_resume file w) as [r w'] eqn:E.
  pose proof (loadImage_resume_frames file w r w' Hwf E) as (_ & _ & Hrel & _ & Hel).
  rewrite (loadImage_resume_run _ _ _ _ Hp Hd) in E.
  assert (Hthrow : exists e, frames_result w gif (d0 :: d1 :: ds) = Throw e).
  { unfold frames_result. destruct Hfail as [-> | [e ->]]; eauto.
    destruct (context_2d w); eauto. }
  destruct Hthrow as [e He]. rewrite <- mapM_build_frame_fst in He.
  destruct (mapM (build_frame gif) _ w) as [[fr|e'] w''] eqn:Em; simpl in He; [done|].
  inversion E; subst. exists e', w'. split; [done|].
  destruct (mapM_build_frame_keeps _ _ _ _ _ Em) as [-> ->].
  split; [done | split; [done|]]. intros h Hh. by apply Hel.
Qed.
End LoaderTheorems.

Section LoaderOutcomes.
Context `{GifLib}.

(** What a successful resumption of [loadImage] can do: nothing, one
    [setImage] with a fresh blob URL, or one [setGif] of at least two fresh
    canvases allocated at the next handles. *)
Lemma loadImage_resume_outcome file w acts w' :
  loadImage_resume file w = (Ok acts, w') ->
  (acts = [] /\ w' = w) \/
  (exists url, acts = [setImage url] /\ w' = snd (createObjectURL w)) \/
  (exists bs d, acts = [setGif (seq (next_handle w) (length bs)) d] /\ (2 <= length bs)%nat /\
     w' = mkWorld (install_canvases (next_handle w) bs (elements w)) (released w)
                  (next_handle w + length bs) (next_blob w) (storage w) (context_2d w)).
Proof.
  unfold loadImage_resume, bind at 1. simpl.
  destruct (parseGIF (fbytes file)) as [gif|e]; [|discriminate]. unfold bind at 1. simpl.
  destruct (decompressFrames gif true) as [decoded|e]; [|discriminate].
  destruct decoded as [|d0 [|d1 ds]]; intros Hr.
  - inversion Hr; subst. by left.
  - inversion Hr; subst. right. left. by eexists.
  - right. right. unfold bind in Hr.
    pose proof (mapM_build_frame_fst gif (d0 :: d1 :: ds) w) as Hfst.
    unfold frames_result in Hfst.
    destruct (context_2d w) eqn:Hc; [| destruct (mapM _ _ w) as [[?|?] ?]; simpl in Hfst;
                                         [discriminate | discriminate]].
    destruct (frame_bitmaps gif (d0 :: d1 :: ds)) as [bs|e] eqn:Ebs;
      [| destruct (mapM _ _ w) as [[?|?] ?]; simpl in Hfst; [discriminate | discriminate]].
    rewrite (mapM_build_frame_ok _ _ _ _ Hc Ebs) in Hr. inversion Hr; subst.
    exists bs, (fdelay d0). split; [done|]. split; [|by rewrite Hc].
    pose proof (mapM_length (build_frame gif) _ w _ _ (mapM_build_frame_ok _ _ _ _ Hc Ebs)) as Hlen.
    rewrite length_seq in Hlen. simpl in Hlen. lia.
Qed.

(** A resumption that throws releases nothing. *)
Lemma loadImage_resume_throw_released file w e w' :
  loadImage_resume file w = (Throw e, w') -> released w' = released w.
Proof.
  unfold loadImage_resume, bind at 1. simpl.
  destruct (parseGIF (fbytes file)) as [gif|e']; [|intros Hx; by inversion Hx].
  unfold bind at 1. simpl.
  destruct (decompressFrames gif true) as [decoded|e']; [|intros Hx; by inversion Hx].
  destruct decoded as [|d0 [|d1 ds]]; intros Hr; try discriminate.
  unfold bind in Hr. destruct (mapM _ _ w) as [[?|?] w1] eqn:Em; inversion Hr; subst.
  by apply mapM_build_frame_keeps in Em as [-> _].
Qed.

End LoaderOutcomes.

(** ** The pictures of the frames *)

Lemma new_ImageData_ok data sw sh d :
  new_ImageData data sw sh = Ok d -> id_width d = sw /\ id_height d = sh /\ id_data d = data.
Proof.
  unfold new_ImageData. repeat case_match; try discriminate. intros Hd. by inversion Hd.
Qed.

(** The pixels of a frame canvas: the size of the logical screen, the
    patch inside the frame's rectangle, transparent black elsewhere. *)
Lemma frame_bitmap_pixels gif f b :
  frame_bitmap gif f = Ok b ->
  bm_width b = lsd_width (lsd gif) /\ bm_height b = lsd_height (lsd gif) /\
  exists data, new_ImageData (patch f) (d_width (dims f)) (d_height (dims f)) = Ok data /\
    forall x y, bm_px b x y =
      if in_rect (d_left (dims f)) (d_top (dims f)) (d_width (dims f)) (d_height (dims f)) x y
      then id_px data (x - d_left (dims f)) (y - d_top (dims f))
      else transparent_black.
Proof.
  unfold frame_bitmap. destruct (new_ImageData _ _ _) as [data|e] eqn:E; [|discriminate].
  intros H. inversion H; subst. simpl. split; [done | split; [done |]].
  exists data. split; [done|]. apply new_ImageData_ok in E as (-> & -> & _). done.
Qed.

(** Painting a full-screen patch at the origin hides what was below. *)
Lemma putImageData_full_cover (b1 b2 : Bitmap) d :
  bm_width b1 = bm_width b2 -> bm_height b1 = bm_height b2 ->
  id_width d = bm_width b1 -> id_height d = bm_height b1 ->
  putImageData b1 d 0 0 ≡ putImageData b2 d 0 0.
Proof.
  intros Hw Hh Hdw Hdh. repeat split; simpl; [done | done |].
  intros x y Hx Hy. unfold in_rect. rewrite Hdw, Hdh.
  replace ((0 <=? x) && (x <? 0 + bm_width b1) && (0 <=? y) && (y <? 0 + bm_height b1))
    with true; [done|].
  symmetry. repeat rewrite andb_true_iff. rewrite !Z.leb_le, !Z.ltb_lt. lia.
Qed.

Lemma frame_bitmaps_ok gif fs :
  Forall (fun f => exists data, new_ImageData (patch f) (d_width (dims f)) (d_height (dims f)) = Ok data) fs ->
  exists bs, frame_bitmaps gif fs = Ok bs.
Proof.
  induction 1 as [|f fs [data Hd] _ [bs Hbs]]; [by exists [] |].
  exists (putImageData (blank_bitmap (lsd_width (lsd gif)) (lsd_height (lsd gif)))
            data (d_left (dims f)) (d_top (dims f)) :: bs).
  simpl. unfold frame_bitmap. by rewrite Hd, Hbs.
Qed.

Lemma frame_bitmaps_lookup gif fs bs i f :
  frame_bitmaps gif fs = Ok bs -> fs !! i = Some f ->
  exists b, bs !! i = Some b /\ frame_bitmap gif f = Ok b.
Proof.
  revert bs i. induction fs as [|f0 fs IH]; intros bs i Hbs Hi; [done|].
  simpl in Hbs. destruct (frame_bitmap gif f0) as [b0|e] eqn:E0; [|done].
  destruct (frame_bitmaps gif fs) as [bs'|e] eqn:Ebs; [|done]. inversion Hbs; subst.
  destruct i as [|i]; simpl in Hi |- *; [inversion Hi; subst; eauto | eauto].
Qed.

(** The run of a GIF of two frames or more whose frames build: the
    canvases [n, n+1, ...] hold the frames' bitmaps. *)
Lemma loadImage_resume_frames_run `{GifLib} file w gif d0 d1 ds bs :
  parseGIF (fbytes file) = Ok gif -> decompressFrames gif true = Ok (d0 :: d1 :: ds) ->
  context_2d w = true -> frame_bitmaps gif (d0 :: d1 :: ds) = Ok bs ->
  loadImage_resume file w =
  (Ok [setGif (seq (next_handle w) (length bs)) (fdelay d0)],
   mkWorld (install_canvases (next_handle w) bs (elements w)) (released w)
           (next_handle w + length bs) (next_blob w) (storage w) (context_2d w)).
Proof.
  intros Hp Hd Hc Hbs. rewrite (loadImage_resume_run _ _ _ _ Hp Hd).
  by rewrite (mapM_build_frame_ok _ _ _ _ Hc Hbs).
Qed.

(** The canvas of the [i]-th frame in the world the loader leaves. *)
Lemma install_frame_canvas gif fs bs n es i f :
  frame_bitmaps gif fs = Ok bs -> fs !! i = Some f ->
  exists b, install_canvases n bs es !! (n + i)%nat = Some (CanvasElement b) /\
            frame_bitmap gif f = Ok b.
Proof.
  intros Hbs Hi. destruct (frame_bitmaps_lookup _ _ _ _ _ Hbs Hi) as (b & Hb & Hf).
  exists b. split; [by apply install_canvases_lookup_new | done].
Qed.



Lemma composite_from_full gif acc fs bs :
  bm_width acc = lsd_width (lsd gif) -> bm_height acc = lsd_height (lsd gif) ->
  Forall (full_frame gif) fs -> frame_bitmaps gif fs = Ok bs ->
  exists cs, composite_from gif acc fs = Ok cs /\ Forall2 (≡) bs cs.
Proof.
  revert acc bs. induction fs as [|f fs IH]; intros acc bs Hw Hh Hfull Hbs; simpl in Hbs.
  - inversion Hbs; subst. exists []. split; [done | constructor].
  - inversion Hfull as [|? ? Hf Hfull']; subst.
    unfold frame_bitmap in Hbs. simpl.
    destruct (new_ImageData _ _ _) as [data|e] eqn:E; [|discriminate].
    destruct (frame_bitmaps gif fs) as [bs'|e] eqn:Ebs; [|discriminate].
    inversion Hbs; subst.
    pose proof (new_ImageData_ok _ _ _ _ E) as (Hdw & Hdh & _).
    unfold full_frame in Hf. rewrite Hf in *. simpl in *.
    destruct (IH (putImageData acc data 0 0) bs') as (cs & Hcs & Hrel); simpl; auto.
    rewrite Hcs. eexists. split; [reflexivity|]. constructor; [|done].
    apply putImageData_full_cover; simpl; congruence.
Qed.

(** C20. Refinement for full-screen frames: when every frame's rectangle
    is the whole logical screen, the canvases the loader builds show the
    same pictures as the compositing decoder of the specification. *)
Theorem frames_refine_composite_full gif fs bs :
  Forall (full_frame gif) fs -> frame_bitmaps gif fs = Ok bs ->
  exists cs, composite_frames gif fs = Ok cs /\ Forall2 (≡) bs cs.
Proof. intros. by apply composite_from_full. Qed.

Section Pictures.
Context `{GifLib}.

(** C19. The loader accepts every frame rectangle: when a 2d context
    exists and every patch passes the [ImageData] constructor's checks, a
    GIF of two frames or more is dispatched as [setGif], whatever the
    frames' offsets and the size of the logical screen.  Each frame's
    canvas has the screen's size and holds the frame's patch inside the
    frame's rectangle, clipped to the screen, and transparent black
    everywhere else.  A rectangle past the screen is not rejected. *)
Theorem loadImage_accepts_any_rectangle file w gif d0 d1 ds :
  parseGIF (fbytes file) = Ok gif -> decompressFrames gif true = Ok (d0 :: d1 :: ds) ->
  context_2d w = true ->
  Forall (fun f => exists data, new_ImageData (patch f) (d_width (dims f)) (d_height (dims f)) = Ok data)
         (d0 :: d1 :: ds) ->
  exists hs w', loadImage_resume file w = (Ok [setGif hs (fdelay d0)], w') /\
    forall i f, (d0 :: d1 :: ds) !! i = Some f ->
      exists h b data, hs !! i = Some h /\ elements w' !! h = Some (CanvasElement b) /\
        new_ImageData (patch f) (d_width (dims f)) (d_height (dims f)) = Ok data /\
        bm_width b = lsd_width (lsd gif) /\ bm_height b = lsd_height (lsd gif) /\
        forall x y, bm_px b x y =
          if in_rect (d_left (dims f)) (d_top (dims f)) (d_width (dims f)) (d_height (dims f)) x y
          then id_px data (x - d_left (dims f)) (y - d_top (dims f))
          else transparent_black.
Proof.
  intros Hp Hd Hc Hok. destruct (frame_bitmaps_ok gif _ Hok) as [bs Hbs].
  rewrite (loadImage_resume_frames_run _ _ _ _ _ _ _ Hp Hd Hc Hbs).
  do 2 eexists. split; [reflexivity |]. intros i f Hi. simpl.
  destruct (install_frame_canvas _ _ _ (next_handle w) (elements w) _ _ Hbs Hi) as (b & Hb & Hf).
  destruct (frame_bitmap_pixels _ _ _ Hf) as (Hw & Hh & data & Hdata & Hpx).
  exists (next_handle w + i)%nat, b, data. repeat split; try done.
  apply lookup_seq. split; [done |].
  destruct (frame_bitmaps_lookup _ _ _ _ _ Hbs Hi) as (b' & Hb' & _).
  by apply lookup_lt_Some in Hb'.
Qed.


End Pictures.

(** ** Witnesses *)

Lemma loadImage_resume_at_most_one_frame_witness :
  exists acts w', @loadImage_resume (lib_with []) gif_file empty_world = (Ok acts, w') /\ acts = [].
Proof.
  destruct (@loadImage_resume_at_most_one_frame (lib_with []) gif_file empty_world
              two_frame_gif [] eq_refl eq_refl ltac:(simpl; lia)) as (acts & w' & Hr & Hnil & _).
  exists acts, w'. split; [exact Hr | exact (proj1 (Hnil eq_refl))].
Defined.

Lemma loadImage_resume_sequence_witness :
  exists hs w', @loadImage_resume (lib_with zero_delay_frames) gif_file empty_world =
                (Ok [setGif hs 0], w') /\ length hs = 2%nat.
Proof.
  destruct (@loadImage_resume_sequence (lib_with zero_delay_frames) gif_file empty_world
              two_frame_gif _ _ _ _
              ltac:(apply (bool_decide_unpack _); vm_compute; reflexivity)
              eq_refl eq_refl eq_refl eq_refl) as (hs & w' & Hr & Hlen & _).
  exists hs, w'. split; [exact Hr | exact Hlen].
Defined.

Lemma loadImage_resume_all_or_nothing_witness :
  exists e w', @loadImage_resume (lib_with bad_patch_frames) gif_file empty_world = (Throw e, w').
Proof.
  destruct (@loadImage_resume_all_or_nothing (lib_with bad_patch_frames) gif_file empty_world
              two_frame_gif _ _ _
              ltac:(apply (bool_decide_unpack _); vm_compute; reflexivity)
              eq_refl eq_refl (or_intror (ex_intro _ _ eq_refl))) as (e & w' & Hr & _).
  exists e, w'. exact Hr.
Defined.

Lemma frames_refine_composite_full_witness :
  exists cs, composite_frames two_frame_gif [hd (mkParsedFrame [] (mkDims 0 0 0 0) 0) two_frame_frames]
             = Ok cs.
Proof.
  destruct (frames_refine_composite_full two_frame_gif
              [hd (mkParsedFrame [] (mkDims 0 0 0 0) 0) two_frame_frames] _
              ltac:(repeat constructor) eq_refl) as (cs & Hcs & _).
  exists cs. exact Hcs.
Defined.

(** A rectangle past the screen is accepted: the second frame is 2 x 1
    pixels at [x = 1] on a 2-pixel-wide screen. *)
Lemma loadImage_accepts_any_rectangle_witness :
  exists hs w', @loadImage_resume (lib_with [hd overhanging_frame two_frame_frames; overhanging_frame])
                  gif_file empty_world = (Ok [setGif hs 100], w').
Proof.
  destruct (@loadImage_accepts_any_rectangle (lib_with [hd overhanging_frame two_frame_frames; overhanging_frame])
              gif_file empty_world two_frame_gif _ _ _ eq_refl eq_refl eq_refl
              ltac:(repeat constructor; eexists; reflexivity)) as (hs & w' & Hr & _).
  exists hs, w'. exact Hr.
Defined.

