(* ===== verification/Canvas.v ===== *)
(** * Canvas: the render scheduler and the drop handler

    Models [src/components/app/Canvas.tsx]:
    - [tick]: the callback given to [useAnimationFrame], run once per
      display refresh with the current state.  It skips while saving, while
      the canvas is not mounted ([ref.current] is [null]), while the state
      is clean and holds no GIF frames, and when [getContext('2d')] returns
      [null]; otherwise it calls the external [drawFrame] (not awaited) and
      dispatches [markClean].  Its effects are returned in order as a list
      of [Effect]s, so that the order "paint, then mark clean" is explicit.
    - [handleDrop]: the drop handler.  It takes the first item of the
      [DataTransfer] (or its first file), ignores what is not a file of an
      [image/] type, and runs [loadImage] up to its first [await]
      ([loadImage_start] of [Load]).
    - [render]: the canvas's size.  [resolution] is memoised on the
      quality through [qualityToResolution] (the class [QualityScale]),
      and React writes the [width] and [height] props, resetting the
      bitmap, only when the value changed.

    The scheduler's contract is stated abstractly ([paint_due]) and [tick]
    is shown to implement it. *)

From S2P Require Import Prelude Dom Store Load.
From Stdlib Require Import QArith Qround.

(** ** The render tick *)

(** What the tick callback does, in the order it does it. *)
Inductive Effect : Type :=
| DrawFrame (canvas ctx : nat) (state : State) (time : number)
    (** [void drawFrame(canvas, ctx, state, time)] *)
| Dispatch (a : Action).
    (** [dispatch(a)] *)

(** [state.frames === null] *)
Definition frames_null (s : State) : bool :=
  match frames s with None => true | Some _ => false end.

(** The [useAnimationFrame] callback, with [ref.current] ([None] for
    [null]) and the timestamp [time] of the frame. *)
Definition tick (ref : option nat) (state : State) (time : number) : JSW (list Effect) :=
  if saving state then ret []
  else match ref with
  | None => ret []
  | Some canvas =>
      if negb (dirty state) && frames_null state then ret []
      else
        do ctx <- getContext_2d canvas;
        match ctx with
        | None => ret []
        | Some c => ret [DrawFrame canvas c state time; Dispatch markClean]
        end
  end.

(** ** The drop handler *)

(** A [DataTransferItem]: [getAsFile()] gives the file, or [null] for an
    item that is not a file. *)
Record DataTransferItem := mkItem { getAsFile : option File }.

(** [ev.dataTransfer]: its [items] (a list in every current browser,
    [None] for a browser without the property) and its [files]. *)
Record DataTransfer := mkDataTransfer {
  dt_items : option (list DataTransferItem);
  dt_files : list File
}.

(** [handleDrop] with [ev.dataTransfer] ([None] for [null]).  The result is
    [None] when the handler returned before calling [loadImage], and the
    state of [loadImage] after its synchronous part otherwise.  Reading
    [items[0]] of an empty list gives [undefined], and calling
    [getAsFile()] on it throws a [TypeError]. *)
Definition handleDrop (dataTransfer : option DataTransfer) : JSW (option LoadStep) :=
  match dataTransfer with
  | None => ret None
  | Some dt =>
      do file <- match dt_items dt with
                 | Some items =>
                     match items with
                     | [] => throw TypeError
                     | it :: _ => ret (getAsFile it)
                     end
                 | None => ret (head (dt_files dt))
                 end;
      match file with
      | None => ret None
      | Some f =>
          if negb (String.prefix "image/" (ftype f)) then ret None
          else do step <- loadImage_start f; ret (Some step)
      end
  end.

(** ** Drag and drop events *)

(** A drag-and-drop event as the handlers see it: its [dataTransfer] and
    whether [preventDefault()] was called on it. *)
Record DragEvent := mkDragEvent {
  ev_dataTransfer : option DataTransfer;
  defaultPrevented : bool
}.

(** [ev.preventDefault()] *)
Definition preventDefault (ev : DragEvent) : DragEvent :=
  mkDragEvent (ev_dataTransfer ev) true.

(** [handleDragOver]: [ev => { ev.preventDefault() }] *)
Definition handleDragOver (ev : DragEvent) : DragEvent := preventDefault ev.

(** [handleDrop] with its event: [ev.preventDefault()] runs first,
    synchronously, and then the rest of the handler. *)
Definition handleDrop_event (ev : DragEvent) : DragEvent * JSW (option LoadStep) :=
  let ev := preventDefault ev in (ev, handleDrop (ev_dataTransfer ev)).

(** The HTML drag-and-drop processing model at the canvas, for a drag
    carrying [dt]: a [dragover] event whose default is not prevented makes
    the drag operation ["none"], and no [drop] event fires; otherwise the
    [drop] event fires, and when its default is not prevented either the
    browser opens the dropped file in place of the page.  The result is
    the handler's outcome ([None] when no drop fired) and whether the
    browser navigates away. *)
Definition drop_at_canvas (onDragOver : DragEvent -> DragEvent)
    (onDrop : DragEvent -> DragEvent * JSW (option LoadStep)) (dt : option DataTransfer)
    : JSW (option (Result (option LoadStep)) * bool) :=
  if defaultPrevented (onDragOver (mkDragEvent dt false)) then
    let '(ev', run) := onDrop (mkDragEvent dt false) in
    fun w => let '(r, w') := run w in (Ok (Some r, negb (defaultPrevented ev')), w')
  else ret (None, false).

(** ** The render *)

(** [qualityToResolution] of [~lib/quality] (not among the sources): as the
    specification describes it, a pure mapping from the quality to a pixel
    resolution, monotonic non-decreasing. *)
Class QualityScale := {
  qualityToResolution : number -> Z;
  qualityToResolution_mono q1 q2 :
    (q1 <= q2)%Q -> (qualityToResolution q1 <= qualityToResolution q2)%Z
}.

(** The render of lines 53-67 and React's commit of it: [resolution] is
    memoised on [state.quality], and React writes the [width] and then the
    [height] prop of the [<canvas>] element only when the value differs
    from the previous render's ([prev]); each write resets the canvas
    bitmap.  The result is the resolution the props now hold. *)
Definition render `{QualityScale} (ref : option nat) (prev : Z) (state : State) : JSW Z :=
  let resolution := qualityToResolution (quality state) in
  if bool_decide (resolution = prev) then ret prev
  else match ref with
       | Some canvas =>
           do set_canvas_width canvas resolution;
           do set_canvas_height canvas resolution;
           ret resolution
       | None => ret resolution
       end.

(** An element after [canvas.width = v; canvas.height = v]. *)
Definition resize_to (v : Z) (e : Element) : Element :=
  match e with
  | CanvasElement _ => CanvasElement (blank_bitmap v v)
  | e => e
  end.

(** ** The scheduler's contract *)

(** The context [canvas.getContext('2d')] gives for the mounted canvas,
    if the canvas is mounted. *)
Definition context_of (w : World) (ref : option nat) : option nat :=
  match ref with
  | Some c => match fst (getContext_2d c w) with Ok o => o | Throw _ => None end
  | None => None
  end.

(** The contract of the scheduler (the specification's steps 1 to 4, with
    step 3 as the code has it): a tick paints when it is not saving, the
    canvas is mounted with a 2d context, and the state is dirty or holds
    GIF frames; a tick that paints paints the current state at the tick's
    time and then dispatches [markClean]; any other tick does nothing. *)
Inductive scheduler_contract (ctx : option nat) (ref : option nat) (s : State) (t : number)
  : list Effect -> Prop :=
| contract_paint c k :
    saving s = false -> ref = Some c -> ctx = Some k ->
    dirty s = true \/ frames s <> None ->
    scheduler_contract ctx ref s t [DrawFrame c k s t; Dispatch markClean]
| contract_skip :
    saving s = true \/ ctx = None \/ (dirty s = false /\ frames s = None) ->
    scheduler_contract ctx ref s t [].

(** The file a drop carries: [items[0].getAsFile()] when the [DataTransfer]
    has [items], [files[0]] otherwise. *)
Definition dropped_file (dt : DataTransfer) : Result (option File) :=
  match dt_items dt with
  | Some [] => Throw TypeError
  | Some (it :: _) => Ok (getAsFile it)
  | None => Ok (head (dt_files dt))
  end.

(** A page whose canvas (handle 0) is mounted. *)
Definition page_world : World :=
  mkWorld {[0%nat := CanvasElement (blank_bitmap 512 512)]} ∅ 1 0 ∅ true.

(** A quality scale: [128 * (max 0 (floor q) + 1)] pixels, so the initial
    quality [3] gives the [512] pixels of [page_world]'s canvas. *)
Definition quality_steps : QualityScale.
Proof.
  refine {| qualityToResolution q := (128 * (Z.max 0 (Qfloor q) + 1))%Z |}.
  intros q1 q2 Hq. pose proof (Qfloor_resp_le q1 q2 Hq). lia.
Defined.

Definition png_drop : DataTransfer :=
  mkDataTransfer (Some [mkItem (Some (mkFile "image/png" [137; 80]%Z))]) [].

(** ** Theorems on the scheduler *)

Lemma tick_contract (ref : option nat) (s : State) (t : number) (w : World) :
  exists effs, tick ref s t w = (Ok effs, w) /\
    scheduler_contract (context_of w ref) ref s t effs.
Proof.
  unfold tick, context_of.
  destruct (saving s) eqn:Hs; [eexists; split; [reflexivity | constructor; auto] |].
  destruct ref as [c|]; [| eexists; split; [reflexivity | constructor; auto]].
  destruct (negb (dirty s) && frames_null s) eqn:Hd.
  - eexists; split; [reflexivity |]. apply contract_skip. right. right.
    unfold frames_null in Hd. destruct (dirty s), (frames s); done.
  - unfold bind, getContext_2d, gets. simpl.
    destruct (match elements w !! c with
              | Some (CanvasElement _) => if context_2d w then Some c else None
              | _ => None end) as [k|] eqn:Ek.
    + eexists; split; [reflexivity |]. apply contract_paint; auto.
      unfold frames_null in Hd. destruct (dirty s), (frames s); simpl in Hd; auto; discriminate.
    + eexists; split; [reflexivity |]. apply contract_skip. auto.
Qed.

(** C4. Refinement: every tick does exactly what the scheduler's contract
    allows, and never changes the world. *)
Theorem tick_refines_contract (ref : option nat) (s : State) (t : number) (w : World) :
  exists effs, tick ref s t w = (Ok effs, w) /\
    scheduler_contract (context_of w ref) ref s t effs.
Proof. apply tick_contract. Qed.

(** [use_contract] replaces a tick by the contract it refines. *)
Ltac use_contract ref s t w :=
  let effs := fresh "effs" in let Htick := fresh "Htick" in let Hc := fresh "Hc" in
  destruct (tick_contract ref s t w) as (effs & Htick & Hc);
  rewrite Htick; inversion Hc; subst.

(** While saving, a tick never paints and dispatches nothing, whatever
    the dirty flag and the source. *)
Theorem tick_saving_never_paints (ref : option nat) (s : State) (t : number) (w : World) :
  saving s = true -> tick ref s t w = (Ok [], w).
Proof. intros Hs. use_contract ref s t w; [congruence | done]. Qed.

(** A clean state that holds no GIF frames (no source, or a still
    image already painted) is never repainted. *)
Theorem tick_clean_still_idle (ref : option nat) (s : State) (t : number) (w : World) :
  dirty s = false -> frames s = None -> tick ref s t w = (Ok [], w).
Proof. intros Hd Hf. use_contract ref s t w; [intuition congruence | done]. Qed.

(** An animation keeps playing: when the state holds GIF frames and
    the canvas is ready, every tick paints the current state at the tick's
    time and then dispatches [markClean], even when the state is clean. *)
Theorem tick_frames_always_paint (c : nat) (s : State) (t : number) (w : World) fs bm :
  saving s = false -> frames s = Some fs ->
  elements w !! c = Some (CanvasElement bm) -> context_2d w = true ->
  tick (Some c) s t w = (Ok [DrawFrame c c s t; Dispatch markClean], w).
Proof.
  intros Hs Hf Hc Hctx. use_contract (Some c) s t w.
  - unfold context_of, getContext_2d, gets in *. simpl in *.
    rewrite Hc, Hctx in *. congruence.
  - unfold context_of, getContext_2d, gets in *. simpl in *.
    rewrite Hc, Hctx in *. intuition congruence.
Qed.

(** ** The render *)

Lemma render_run `{QualityScale} ref prev s w :
  render ref prev s w =
  (Ok (qualityToResolution (quality s)),
   if bool_decide (qualityToResolution (quality s) = prev) then w
   else match ref with
        | Some c => set_elements (alter (resize_to (qualityToResolution (quality s))) c (elements w)) w
        | None => w
        end).
Proof.
  unfold render. case_bool_decide as Heq; [by rewrite Heq|].
  destruct ref as [c|]; [|done].
  unfold bind, set_canvas_width, set_canvas_height, update_element, modify, ret, set_elements.
  cbn [elements released next_handle next_blob storage context_2d].
  rewrite alter_alter_eq. do 2 f_equal. apply alter_ext.
  intros [src|b] _; done.
Qed.

(** A resize keeps every element's kind: images are unchanged, canvases
    stay canvases, and the resized canvas gets the new size. *)
Lemma resize_keeps_kinds (r : Z) (k h : nat) (es : gmap nat Element) :
  (forall src, es !! h = Some (ImageElement src) ->
     alter (resize_to r) k es !! h = Some (ImageElement src)) /\
  (forall bm, es !! h = Some (CanvasElement bm) ->
     exists bm', alter (resize_to r) k es !! h = Some (CanvasElement bm')) /\
  is_canvas (alter (resize_to r) k es !! h) = is_canvas (es !! h) /\
  (is_Some (alter (resize_to r) k es !! h) <-> is_Some (es !! h)).
Proof.
  rewrite lookup_alter. case_decide; [subst k|naive_solver].
  destruct (es !! h) as [[src|bm]|]; simpl; naive_solver.
Qed.

(** ** Theorems on the drop handler *)

Lemma handleDrop_run dt w :
  handleDrop (Some dt) w =
  match dropped_file dt with
  | Throw e => (Throw e, w)
  | Ok None => (Ok None, w)
  | Ok (Some f) =>
      if String.prefix "image/" (ftype f)
      then bind (loadImage_start f) (fun step => ret (Some step)) w
      else (Ok None, w)
  end.
Proof.
  unfold handleDrop, dropped_file, bind.
  destruct (dt_items dt) as [[|it items]|]; simpl; try reflexivity;
    [destruct (getAsFile it) as [f|] | destruct (head (dt_files dt)) as [f|]]; try reflexivity;
    destruct (String.prefix "image/" (ftype f)); reflexivity.
Qed.

(** C26. Only image files reach the loader: a drop without a file, or
    with a file whose type does not start with [image/], returns without
    changing anything; an [image/gif] file suspends the loader on its
    buffer with nothing changed; any other image file is dispatched at once
    as [setImage] with a fresh blob URL, [blob:] followed by the page's
    URL counter, which the drop advances; nothing else changes. *)
Theorem handleDrop_routes (dt : DataTransfer) (w : World) f :
  dropped_file dt = Ok f ->
  match f with
  | Some file =>
      if String.prefix "image/" (ftype file) then
        if String.eqb (ftype file) "image/gif"
        then handleDrop (Some dt) w = (Ok (Some (AwaitingBuffer file)), w)
        else handleDrop (Some dt) w =
               (Ok (Some (Finished [setImage ("blob:" +:+ pretty (next_blob w))%string])),
                mkWorld (elements w) (released w) (next_handle w) (N.succ (next_blob w))
                        (storage w) (context_2d w))
      else handleDrop (Some dt) w = (Ok None, w)
  | None => handleDrop (Some dt) w = (Ok None, w)
  end.
Proof.
  intros Hf. rewrite handleDrop_run, Hf. destruct f as [file|]; [|done].
  destruct (String.prefix "image/" (ftype file)); [|done].
  unfold loadImage_start, bind. destruct (String.eqb (ftype file) "image/gif"); [done|].
  done.
Qed.

(** C22. The canvas is a drop target and keeps the page: with the two
    handlers of Canvas.tsx, every drag that is dropped on the canvas fires
    the drop handler, whose outcome (its exception included) is that of
    [handleDrop], and the browser never opens the dropped file in place of
    the page.  Without [handleDragOver] no drop fires at all. *)
Theorem drop_reaches_handleDrop (dt : option DataTransfer) (w : World) :
  drop_at_canvas handleDragOver handleDrop_event dt w =
    (Ok (Some (fst (handleDrop dt w)), false), snd (handleDrop dt w)) /\
  drop_at_canvas (fun ev => ev) handleDrop_event dt w = (Ok (None, false), w).
Proof. unfold drop_at_canvas. simpl. split; [by destruct (handleDrop dt w) | done]. Qed.

(** ** What a drop and a tick can do to the rest of the program *)

(** A drop dispatches at most one [setImage] (with a fresh blob URL), and
    changes the world only by allocating that URL. *)
Lemma handleDrop_outcome dt w r w' :
  handleDrop dt w = (r, w') ->
  (w' = w /\ forall acts, r <> Ok (Some (Finished acts))) \/
  (exists url, r = Ok (Some (Finished [setImage url])) /\ w' = snd (createObjectURL w)).
Proof.
  destruct dt as [dt|]; [| intros H; inversion H; subst; left; split; congruence].
  rewrite handleDrop_run. destruct (dropped_file dt) as [[f|]|e];
    try (intros H; inversion H; subst; left; split; congruence).
  destruct (String.prefix "image/" (ftype f));
    [| intros H; inversion H; subst; left; split; congruence].
  unfold loadImage_start, bind. destruct (String.eqb (ftype f) "image/gif"); simpl;
    intros H; inversion H; subst; [left; split; congruence | right; eauto].
Qed.

(** A tick leaves the world as it is, and either does nothing or paints
    the current state and then dispatches [markClean]. *)
Lemma tick_outcome ref s t w r w' :
  tick ref s t w = (r, w') ->
  w' = w /\ (r = Ok [] \/ exists c k, r = Ok [DrawFrame c k s t; Dispatch markClean]).
Proof.
  destruct (tick_contract ref s t w) as (effs & Htick & Hc). rewrite Htick.
  intros H. inversion H; subst. split; [done|]. inversion Hc; subst; eauto.
Qed.

(** ** Witnesses *)

Lemma tick_saving_never_paints_witness :
  tick (Some 0%nat) (set_saving true (initialState None)) 16 page_world = (Ok [], page_world).
Proof. apply tick_saving_never_paints. reflexivity. Defined.

Lemma tick_clean_still_idle_witness :
  tick (Some 0%nat) (set_image (Some 3%nat) (set_dirty false (initialState None))) 16 page_world
  = (Ok [], page_world).
Proof. apply tick_clean_still_idle; reflexivity. Defined.

Lemma tick_frames_always_paint_witness :
  let s := set_frames (Some [1%nat; 2%nat]) (set_dirty false (initialState None)) in
  tick (Some 0%nat) s 16 page_world =
  (Ok [DrawFrame 0 0 s 16; Dispatch markClean], page_world).
Proof.
  apply (tick_frames_always_paint 0 _ 16 page_world [1%nat; 2%nat] (blank_bitmap 512 512));
    reflexivity.
Defined.

Lemma handleDrop_routes_witness :
  handleDrop (Some png_drop) page_world =
    (Ok (Some (Finished [setImage "blob:0"])),
     mkWorld (elements page_world) (released page_world) (next_handle page_world)
             (N.succ (next_blob page_world)) (storage page_world) (context_2d page_world)).
Proof.
  exact (handleDrop_routes png_drop page_world (Some (mkFile "image/png" [137; 80]%Z)) eq_refl).
Defined.
