(* ===== verification/App.v ===== *)
(** * App: the whole application as a transition system

    The components interact through the store: the controls dispatch
    parameter actions, the drop handler and the loader dispatch
    [setImage]/[setGif], and the scheduler reads the state on every
    animation frame, paints it and dispatches [markClean].  This file puts
    them together.  A configuration ([Config]) holds the store's state, the
    browser world, the mounted canvas, the [loadImage] calls suspended on
    their file buffer (in the order of the drops), and the [drawFrame]
    calls made so far (latest first).  An event is a control's action, a
    drop, the arrival of one suspended buffer (in any order: the browser
    resolves the reads independently), or an animation frame; [step] runs
    its handler to completion, as the single-threaded event loop does,
    applies the actions it dispatched, in order ([handle_event]), and then
    React's render of the canvas ([commit]), which resizes and resets the
    canvas when the quality's resolution changed.

    The reachable configurations ([reachable]) satisfy the invariant
    [app_inv]: the screen shows the current state whenever the state is
    clean (no lost redraw), the state holds at most one source and a frame
    sequence has at least two distinct frames, and every element the state
    holds is alive (no use after [remove()]).  The preorder
    [changes_only_own] bounds what one step may do to the page, and
    [foreign_untouched] follows from it: the page's own elements, the
    mounted canvas among them, are never changed, released or held.  The
    last theorems show what the invariants cannot: any buffer arrival,
    however old its drop, installs its GIF over a newer source.

    The store's context ([StoreContext]) is how the Canvas reaches the
    store: under the [Provider] its animation-frame callback ([frame_in])
    is the handler of the model, and outside one, with the context's
    default value, it throws at [dispatch] on every frame. *)

From S2P Require Import Prelude Dom Store Load Canvas.
From Stdlib Require Import QArith.

(** ** Configurations and events *)

Record Config := mkConfig {
  st : State;
  world : World;
  mounted : option nat;               (** [canvasRef.current] *)
  resolution : Z;                     (** the canvas's [width]/[height] props *)
  pending : list File;                (** suspended [loadImage] calls *)
  painted : list (State * number);    (** [drawFrame] calls, latest first *)
  cleared : bool                      (** the bitmap was reset after the last [drawFrame] *)
}.

Inductive Event : Type :=
| UserAction (a : Action)             (** a control dispatches [a] *)
| Drop (dt : option DataTransfer)     (** a drop on the canvas *)
| BufferReady (i : nat)               (** the buffer of the [i]-th suspended load arrives *)
| AnimationFrame (time : number).     (** [requestAnimationFrame] fires *)

(** The actions the controls dispatch: every action but [markClean] (the
    scheduler's), [setImage]/[setGif] (the loader's) and invalid ones. *)
Definition user_action (a : Action) : bool :=
  match a with
  | setQuality _ | setPadding _ | setAngle _ | setFlag _ | toggleEasterEgg
  | setSaving _ | setAdShowing _ | markAdShown => true
  | _ => false
  end.

Definition with_world (w : World) (c : Config) : Config :=
  mkConfig (st c) w (mounted c) (resolution c) (pending c) (painted c) (cleared c).

Definition with_state (s : State) (w : World) (c : Config) : Config :=
  mkConfig s w (mounted c) (resolution c) (pending c) (painted c) (cleared c).

(** [dispatch(a)]: the reducer runs on the current state. *)
Definition dispatch (a : Action) (c : Config) : Config :=
  match reducer (st c) a (world c) with
  | (Ok s', w') => with_state s' w' c
  | (Throw _, w') => with_world w' c
  end.

Definition dispatch_all (acts : list Action) (c : Config) : Config :=
  fold_left (fun c a => dispatch a c) acts c.

(** The effects of a tick, in order. *)
Definition run_effect (c : Config) (e : Effect) : Config :=
  match e with
  | DrawFrame _ _ s t =>
      mkConfig (st c) (world c) (mounted c) (resolution c) (pending c) ((s, t) :: painted c) false
  | Dispatch a => dispatch a c
  end.

Section System.
Context `{GifLib} `{QualityScale}.

(** The handler of an event, run to completion with the dispatches it
    makes. *)
Definition handle_event (c : Config) (e : Event) : Config :=
  match e with
  | UserAction a => dispatch a c
  | Drop dt =>
      match handleDrop dt (world c) with
      | (Ok (Some (Finished acts)), w') => dispatch_all acts (with_world w' c)
      | (Ok (Some (AwaitingBuffer f)), w') =>
          mkConfig (st c) w' (mounted c) (resolution c) (pending c ++ [f]) (painted c) (cleared c)
      | (_, w') => with_world w' c
      end
  | BufferReady i =>
      match pending c !! i with
      | None => c
      | Some f =>
          let c1 := mkConfig (st c) (world c) (mounted c) (resolution c) (delete i (pending c))
                             (painted c) (cleared c) in
          match loadImage_resume f (world c) with
          | (Ok acts, w') => dispatch_all acts (with_world w' c1)
          | (Throw _, w') => with_world w' c1
          end
      end
  | AnimationFrame t =>
      match tick (mounted c) (st c) t (world c) with
      | (Ok effs, w') => fold_left run_effect effs (with_world w' c)
      | (Throw _, w') => with_world w' c
      end
  end.

(** React's commit after the handler: the canvas is rendered with the
    current state ([render]); a change of resolution resets its bitmap. *)
Definition commit (c : Config) : Config :=
  match render (mounted c) (resolution c) (st c) (world c) with
  | (Ok r, w') =>
      mkConfig (st c) w' (mounted c) r (pending c) (painted c)
               (cleared c || negb (bool_decide (r = resolution c)))
  | (Throw _, w') => with_world w' c
  end.

(** One event: its handler, then the render it causes. *)
Definition step (c : Config) (e : Event) : Config := commit (handle_event c e).

Definition run (c : Config) (es : list Event) : Config := fold_left step es c.

(** The page after it loaded: the initial state read from the world's
    [localStorage], the canvas [m] mounted (or not) and rendered at the
    initial quality's resolution, nothing drawn yet. *)
Definition init (m : option nat) (w0 : World) : Config :=
  let s0 := initialState (Some (storage w0)) in
  mkConfig s0 w0 m (qualityToResolution (quality s0)) [] [] true.

Inductive reachable (m : option nat) (w0 : World) : Config -> Prop :=
| reach_init : reachable m w0 (init m w0)
| reach_user c a : reachable m w0 c -> user_action a = true ->
    reachable m w0 (step c (UserAction a))
| reach_drop c dt : reachable m w0 c -> reachable m w0 (step c (Drop dt))
| reach_buffer c i : reachable m w0 c -> reachable m w0 (step c (BufferReady i))
| reach_frame c t : reachable m w0 c -> reachable m w0 (step c (AnimationFrame t)).

End System.

(** ** The invariant *)

(** No lost redraw: a clean state is what the last [drawFrame] painted,
    and the canvas was not reset since. *)
Definition screen_current (c : Config) : Prop :=
  dirty (st c) = true \/
  (cleared c = false /\
   exists s0 t0 rest, painted c = (s0, t0) :: rest /\ view s0 = view (st c)).

(** At most one source, and a frame sequence has two frames or more, all
    of them distinct canvases. *)
Definition source_ok (s : State) : Prop :=
  match image s, frames s with
  | Some _, Some _ => False
  | _, Some fr => (2 <= length fr)%nat /\ NoDup fr
  | _, _ => True
  end.

(** Every element the state holds exists, has the right kind, and has not
    been released; only allocated handles are released. *)
Definition handles_live (c : Config) : Prop :=
  world_wf (world c) /\
  (forall h, h ∈ released (world c) -> (h < next_handle (world c))%nat) /\
  (forall h, image (st c) = Some h ->
     (h ∉ released (world c)) /\ exists src, elements (world c) !! h = Some (ImageElement src)) /\
  (forall fr h, frames (st c) = Some fr -> h ∈ fr ->
     (h ∉ released (world c)) /\ exists bm, elements (world c) !! h = Some (CanvasElement bm)).

Definition core_inv (c : Config) : Prop :=
  screen_current c /\ source_ok (st c) /\ handles_live c.

(** The canvas's props hold the resolution of the current quality: the
    last render saw the current state. *)
Definition committed `{QualityScale} (c : Config) : Prop :=
  resolution c = qualityToResolution (quality (st c)).

Definition app_inv `{QualityScale} (c : Config) : Prop := core_inv c /\ committed c.

(** The mounted canvas exists and has the size of the canvas's props. *)
Definition mounted_sized (c : Config) : Prop :=
  forall k, mounted c = Some k ->
    exists bm, elements (world c) !! k = Some (CanvasElement bm) /\
               bm_width bm = resolution c /\ bm_height bm = resolution c.

(** The world a page starts from: well formed, and only allocated
    handles released. *)
Definition world_ok (w : World) : Prop :=
  world_wf w /\ forall h, h ∈ released w -> (h < next_handle w)%nat.

(** What one step may do to the page: allocate new handles, change no
    element that existed, release only what the state held (or what the
    step allocated), and make the state hold only what it held or what
    the step allocated. *)
Definition changes_only_own (c c' : Config) : Prop :=
  (next_handle (world c) <= next_handle (world c'))%nat /\
  released (world c) ⊆ released (world c') /\
  (forall h, (h < next_handle (world c))%nat ->
     elements (world c') !! h = elements (world c) !! h) /\
  (forall h, h ∈ released (world c') ->
     h ∈ released (world c) \/ h ∈ held (st c) \/ (next_handle (world c) <= h)%nat) /\
  (forall h, h ∈ held (st c') -> h ∈ held (st c) \/ (next_handle (world c) <= h)%nat).

(** The elements the page had before the program ran (those of [w0]) are
    unchanged, except the mounted canvas, which stays a canvas; none is
    released by the program or held by the state. *)
Definition foreign_untouched (w0 : World) (c : Config) : Prop :=
  (next_handle w0 <= next_handle (world c))%nat /\
  forall h, (h < next_handle w0)%nat ->
    (mounted c <> Some h -> elements (world c) !! h = elements w0 !! h) /\
    is_canvas (elements (world c) !! h) = is_canvas (elements w0 !! h) /\
    (h ∈ released (world c) <-> h ∈ released w0) /\ h ∉ held (st c).

(** ** The store's context

    Components reach the store through the React context [store] of
    Store.tsx: [Provider] gives it the value [{ state, dispatch }] of its
    [useReducer], memoised on both ([useMemo]), and [useStore()] (in
    [~lib], the [useContext] of [store]) returns the value of the nearest
    [Provider], or the context's default value [{ state: initialState }]
    outside any [Provider]: a default without [dispatch], which the
    [@ts-expect-error] lets through the type checker. *)

(** The [dispatch] field of the context's value: React's dispatch of the
    [Provider]'s reducer, or [undefined]. *)
Inductive DispatchValue : Type :=
| ReactDispatch
| DispatchUndefined.

(** [interface Context { state: State; dispatch: Dispatch<Action> }] *)
Record StoreContext := mkStoreContext {
  ctx_state : State;
  ctx_dispatch : DispatchValue
}.

(** [createContext<Context>({ state: initialState })]: [initialState] is
    read when the module loads, from the page's [localStorage]. *)
Definition store_default (w0 : World) : StoreContext :=
  mkStoreContext (initialState (Some (storage w0))) DispatchUndefined.

(** [useMemo(() => ({ state, dispatch }), [state, dispatch])] in
    [Provider]: the current state and React's dispatch. *)
Definition Provider_value (c : Config) : StoreContext :=
  mkStoreContext (st c) ReactDispatch.

(** [dispatch(a)] with the context's [dispatch]: calling [undefined]
    throws a [TypeError]. *)
Definition call_dispatch (d : DispatchValue) (a : Action) (c : Config) : Result unit * Config :=
  match d with
  | ReactDispatch => (Ok tt, dispatch a c)
  | DispatchUndefined => (Throw TypeError, c)
  end.

(** A [drawFrame] call, recorded. *)
Definition record_draw (c : Config) (e : Effect) : Config :=
  match e with
  | DrawFrame _ _ s t =>
      mkConfig (st c) (world c) (mounted c) (resolution c) (pending c) ((s, t) :: painted c) false
  | Dispatch _ => c
  end.

(** The effects of a tick with the context's [dispatch], in order: an
    exception ends the callback. *)
Fixpoint run_effects_in (d : DispatchValue) (effs : list Effect) (c : Config) : Result unit * Config :=
  match effs with
  | [] => (Ok tt, c)
  | Dispatch a :: rest =>
      match call_dispatch d a c with
      | (Ok _, c') => run_effects_in d rest c'
      | (Throw e, c') => (Throw e, c')
      end
  | e :: rest => run_effects_in d rest (record_draw c e)
  end.

(** The animation-frame callback of a [Canvas] whose [useStore()] gave
    [ctx]: the tick reads [ctx]'s state and dispatches with [ctx]'s
    [dispatch]. *)
Definition frame_in (ctx : StoreContext) (c : Config) (t : number) : Result unit * Config :=
  match tick (mounted c) (ctx_state ctx) t (world c) with
  | (Ok effs, w') => run_effects_in (ctx_dispatch ctx) effs (with_world w' c)
  | (Throw e, w') => (Throw e, with_world w' c)
  end.

(** ** A scenario: two GIFs dropped one after the other *)

(** A gifuct-js that keeps the bytes as the GIF's body and decodes a body
    starting with 65 to the frames of [two_frame_frames] (red, then a blue
    patch), any other body to two full green frames. *)
Definition two_gifs_lib : GifLib := {|
  parseGIF := fun bytes => Ok (mkParsedGif (mkLsd 2 1) bytes);
  decompressFrames := fun gif _ =>
    match gif_body gif with
    | 65%Z :: _ => Ok two_frame_frames
    | _ => Ok [mkParsedFrame [0; 255; 0; 255; 0; 255; 0; 255]%Z (mkDims 2 1 0 0) 100;
               mkParsedFrame [0; 255; 0; 255; 0; 255; 0; 255]%Z (mkDims 2 1 0 0) 100]
    end |}.

Definition gif_drop (bytes : list Z) : DataTransfer :=
  mkDataTransfer (Some [mkItem (Some (mkFile "image/gif" bytes))]) [].

(** The pictures of the frames the state shows, read back from their
    canvases. *)
Definition shown_frames (c : Config) : option (list (list Z)) :=
  option_map (map (fun h => match elements (world c) !! h with
                            | Some (CanvasElement b) => bitmap_bytes b
                            | _ => []
                            end)) (frames (st c)).

(** ** Lemmas: each kind of dispatch *)

Lemma dispatch_ok a c s' w' :
  reducer (st c) a (world c) = (Ok s', w') ->
  dispatch a c = with_state s' w' c.
Proof. unfold dispatch. by intros ->. Qed.

(** A control's action changes neither the source nor any element, and
    either leaves what is drawn and the dirty flag alone or makes the
    state dirty. *)
Lemma user_action_reducer a s w :
  user_action a = true ->
  exists s' w', reducer s a w = (Ok s', w') /\
    image s' = image s /\ frames s' = frames s /\
    elements w' = elements w /\ released w' = released w /\ next_handle w' = next_handle w /\
    (dirty s' = true \/ (dirty s' = dirty s /\ view s' = view s)).
Proof.
  intros Ha. destruct a; try discriminate; do 2 eexists; (split; [reflexivity|]);
    simpl; repeat split; auto.
Qed.

Lemma held_allocated c h :
  handles_live c -> h ∈ held (st c) -> (h < next_handle (world c))%nat.
Proof.
  intros (Hwf & _ & Himg & Hfr) Hh. unfold held in Hh.
  apply elem_of_app in Hh as [Hh|Hh].
  - destruct (image (st c)) as [i|] eqn:Ei; [|set_solver].
    apply list_elem_of_singleton in Hh as ->.
    destruct (Himg _ eq_refl) as (_ & src & Hsrc). apply Hwf. by rewrite Hsrc.
  - destruct (frames (st c)) as [fr|] eqn:Ef; simpl in Hh; [|set_solver].
    destruct (Hfr _ _ eq_refl Hh) as (_ & bm & Hbm). apply Hwf. by rewrite Hbm.
Qed.

(** [setImage url] after [createObjectURL]: the invariant holds again. *)
Lemma inv_setImage c url :
  handles_live c ->
  core_inv (dispatch (setImage url) (with_world (snd (createObjectURL (world c))) c)).
Proof.
  intros Hl. pose proof Hl as (Hwf & Hrel & _ & _).
  rewrite (dispatch_ok _ _ _ _ (reducer_setImage_run _ _ _)). simpl.
  split; [by left | split; [done |]]. split; [|split; [|split]]; simpl.
  - intros h Hh. simpl in *. destruct (decide (h = next_handle (world c))) as [->|Hne]; [lia|].
    rewrite lookup_insert_ne in Hh by done. specialize (Hwf h Hh). lia.
  - intros h Hh. apply elem_of_union in Hh as [Hh|Hh].
    + apply elem_of_list_to_set, (held_allocated c h Hl) in Hh. lia.
    + specialize (Hrel h Hh). lia.
  - intros h Hh. injection Hh as <-. split.
    + intros Hin. apply elem_of_union in Hin as [Hin|Hin].
      * apply elem_of_list_to_set, (held_allocated c _ Hl) in Hin. lia.
      * specialize (Hrel _ Hin). lia.
    + eexists. apply lookup_insert_eq.
  - discriminate.
Qed.

(** The invariant reads only the state's source and the world's element
    store, release marks and handle counter. *)
Lemma handles_live_transfer c1 c2 :
  image (st c2) = image (st c1) -> frames (st c2) = frames (st c1) ->
  elements (world c2) = elements (world c1) -> released (world c2) = released (world c1) ->
  next_handle (world c2) = next_handle (world c1) ->
  handles_live c1 -> handles_live c2.
Proof.
  intros Hi Hf He Hr Hn (Hwf & Hrel & Himg & Hfr).
  unfold handles_live, world_wf in *. rewrite Hi, Hf, He, Hr, Hn. auto.
Qed.

Lemma source_ok_transfer s1 s2 :
  image s2 = image s1 -> frames s2 = frames s1 -> source_ok s1 -> source_ok s2.
Proof. unfold source_ok. by intros -> ->. Qed.

(** A configuration with the same state, world, paint log and reset
    flag. *)
Lemma core_inv_transfer c1 c2 :
  st c2 = st c1 -> world c2 = world c1 -> painted c2 = painted c1 -> cleared c2 = cleared c1 ->
  core_inv c1 -> core_inv c2.
Proof.
  intros Hs Hw Hp Hc (Hscr & Hsrc & Hl). unfold core_inv, screen_current.
  rewrite Hs, Hp, Hc. split; [done | split; [done |]].
  eapply handles_live_transfer; [| | | | | exact Hl]; by rewrite ?Hs, ?Hw.
Qed.

Lemma install_canvases_lookup_Some n bs es h e :
  install_canvases n bs es !! h = Some e -> es !! h = Some e \/ (n <= h < n + length bs)%nat.
Proof.
  revert n es. induction bs as [|b bs IH]; intros n es H; simpl in H; [by left|].
  apply IH in H as [H|H]; [|simpl; right; lia].
  destruct (decide (h = n)) as [->|Hne]; [simpl; right; lia|].
  rewrite lookup_insert_ne in H by done. by left.
Qed.

(** [setGif] of the canvases the loader just allocated: the invariant
    holds again. *)
Lemma inv_setGif c bs d :
  handles_live c -> (2 <= length bs)%nat ->
  let n := next_handle (world c) in
  core_inv (dispatch (setGif (seq n (length bs)) d)
             (with_world (mkWorld (install_canvases n bs (elements (world c))) (released (world c))
                                  (n + length bs) (next_blob (world c)) (storage (world c))
                                  (context_2d (world c))) c)).
Proof.
  intros Hl Hlen n. pose proof Hl as (Hwf & Hrel & _ & _).
  rewrite (dispatch_ok _ _ _ _ (reducer_setGif_run _ _ _ _)). simpl.
  split; [by left | split; [unfold source_ok; simpl; rewrite length_seq; split; [done | apply NoDup_seq] |]].
  unfold release_all. split; [|split; [|split]]; simpl.
  - intros h [e He]. simpl in *. apply install_canvases_lookup_Some in He as [He|He]; [|lia].
    specialize (Hwf h ltac:(by rewrite He)). lia.
  - intros h Hh. apply elem_of_union in Hh as [Hh|Hh].
    + apply elem_of_list_to_set, (held_allocated c h Hl) in Hh. lia.
    + specialize (Hrel h Hh). lia.
  - discriminate.
  - intros fr h Hfr Hh. injection Hfr as <-. apply list_elem_of_lookup in Hh as [i Hi].
    pose proof Hi as Hi'. apply lookup_seq in Hi' as [-> Hib]. split.
    + intros Hin. apply elem_of_union in Hin as [Hin|Hin].
      * apply elem_of_list_to_set, (held_allocated c _ Hl) in Hin. lia.
      * specialize (Hrel _ Hin). lia.
    + destruct (lookup_lt_is_Some_2 bs i Hib) as [b Hb].
      exists b. by apply install_canvases_lookup_new.
Qed.

(** ** Lemmas: what a step changes *)

#[export] Instance changes_only_own_preorder : PreOrder changes_only_own.
Proof.
  split.
  - intros c. split; [lia | split; [done | split; [done | split; auto]]].
  - intros c1 c2 c3 (Hn1 & Hr1 & He1 & Hrel1 & Hh1) (Hn2 & Hr2 & He2 & Hrel2 & Hh2).
    split; [lia | split; [set_solver | split; [| split]]].
    + intros h Hh. rewrite He2 by lia. by apply He1.
    + intros h Hh. destruct (Hrel2 h Hh) as [H|[H|H]]; [by apply Hrel1 | | right; right; lia].
      destruct (Hh1 h H) as [H'|H']; [by right; left | right; right; lia].
    + intros h Hh. destruct (Hh2 h Hh) as [H|H]; [by apply Hh1 | right; lia].
Qed.

(** A step that keeps the state's source and the element store, release
    marks and handle counter changes nothing of its own. *)
Lemma changes_same_handles c c' :
  held (st c') = held (st c) -> elements (world c') = elements (world c) ->
  released (world c') = released (world c) -> next_handle (world c') = next_handle (world c) ->
  changes_only_own c c'.
Proof.
  intros Hh He Hr Hn. unfold changes_only_own. rewrite Hh, He, Hr, Hn.
  split; [lia | split; [done | split; [done | split]]]; auto.
Qed.

(** A dispatch after a change from [c0] is a change from [c0], when the
    action carries only handles allocated since [c0]. *)
Lemma changes_dispatch c0 c a :
  changes_only_own c0 c ->
  (forall h, h ∈ action_handles a -> (next_handle (world c0) <= h)%nat) ->
  changes_only_own c0 (dispatch a c).
Proof.
  intros (Hn0 & Hr0 & He0 & Hrel0 & Hh0) Ha.
  unfold dispatch. destruct (reducer (st c) a (world c)) as [r w'] eqn:E.
  destruct (reducer_changes _ _ _ _ _ E) as (Hn & Hr & He & Hrel & Hh).
  assert (Hrel' : forall h, h ∈ released w' -> h ∈ released (world c0) \/
                    h ∈ held (st c0) \/ (next_handle (world c0) <= h)%nat).
  { intros h Hin. apply Hrel, elem_of_union in Hin as [Hin|Hin]; [|by apply Hrel0].
    apply elem_of_list_to_set, Hh0 in Hin as [?|?]; [by right; left | right; right; lia]. }
  destruct r as [s'|e];
    (split; [simpl; lia | split; [simpl; set_solver | split; [| split]]]); simpl;
    try exact Hrel'; try exact Hh0.
  1, 3: intros h Hlt; rewrite He by lia; by apply He0.
  intros h Hin. destruct (Hh s' eq_refl h Hin) as [H|[H|H]];
    [by apply Hh0 | right; by apply Ha | right; lia].
Qed.

(** The relation reads only the state and the world of its source. *)
Lemma changes_only_own_src c1 d1 c2 :
  st d1 = st c1 -> world d1 = world c1 ->
  changes_only_own c1 c2 -> changes_only_own d1 c2.
Proof. unfold changes_only_own. intros H1 H2. by rewrite H1, H2. Qed.

(** The loader's installation of its frame canvases at the next handles. *)
Lemma changes_install c bs :
  changes_only_own c
    (with_world (mkWorld (install_canvases (next_handle (world c)) bs (elements (world c)))
                         (released (world c)) (next_handle (world c) + length bs)
                         (next_blob (world c)) (storage (world c)) (context_2d (world c))) c).
Proof.
  split; [simpl; lia | split; [done | split; [| split]]]; simpl.
  - intros h Hh. by apply install_canvases_lookup_lt.
  - by left.
  - by left.
Qed.

(** A computation with a frame condition that releases nothing. *)
Lemma changes_frames_except {A} c w' (m : JSW A) r :
  world_wf (world c) -> frames_except ∅ m -> m (world c) = (r, w') ->
  released w' = released (world c) -> changes_only_own c (with_world w' c).
Proof.
  intros Hwf Hm E Hr. destruct (Hm _ _ _ Hwf E) as (_ & Hn & _ & _ & He).
  split; [done | split; [simpl; by rewrite Hr | split; [| split]]]; simpl.
  - intros h Hh. apply He; [done | set_solver].
  - rewrite Hr. by left.
  - by left.
Qed.

Section Changes.
Context `{GifLib}.

(** Every handler changes only what the program owns, when the controls
    dispatch no frames of their own. *)
Lemma handle_changes c e :
  world_wf (world c) -> (forall a, e = UserAction a -> action_handles a = []) ->
  changes_only_own c (handle_event c e).
Proof.
  intros Hwf Hu. destruct e as [a|dt|i|t]; simpl.
  - apply changes_dispatch; [reflexivity | rewrite (Hu a eq_refl); set_solver].
  - destruct (handleDrop dt (world c)) as [r w'] eqn:E.
    destruct (handleDrop_outcome dt (world c) r w' E) as [[-> Hnot] | (url & -> & ->)].
    + destruct r as [[[acts|f]|]|e]; [by destruct (Hnot acts) | ..];
        by apply changes_same_handles.
    + apply changes_dispatch; [by apply changes_same_handles | set_solver].
  - destruct (pending c !! i) as [f|]; [|reflexivity].
    set (c1 := mkConfig (st c) (world c) (mounted c) (resolution c) (delete i (pending c)) (painted c) (cleared c)).
    apply (changes_only_own_src c1); [done..|].
    destruct (loadImage_resume f (world c)) as [[acts|e] w'] eqn:E.
    + destruct (loadImage_resume_outcome f (world c) acts w' E)
        as [[-> ->] | [(url & -> & ->) | (bs & d & -> & Hlen & ->)]].
      * by apply changes_same_handles.
      * apply changes_dispatch; [by apply changes_same_handles | set_solver].
      * apply changes_dispatch; [apply (changes_install c1 bs) |].
        simpl. intros h Hh. apply elem_of_seq in Hh. lia.
    + apply (changes_frames_except c1 w' (loadImage_resume f) (Throw e));
        [done | apply loadImage_resume_frames | done |].
      by apply loadImage_resume_throw_released in E.
  - destruct (tick (mounted c) (st c) t (world c)) as [r w'] eqn:E.
    destruct (tick_outcome _ _ _ _ _ _ E) as [-> [-> | (c0 & k & ->)]].
    + by apply changes_same_handles.
    + simpl. apply changes_dispatch; [by apply changes_same_handles | set_solver].
Qed.

End Changes.

(** ** Lemmas: each kind of event *)

Section Events.
Context `{GifLib}.

Lemma inv_user c a :
  core_inv c -> user_action a = true -> core_inv (handle_event c (UserAction a)).
Proof.
  intros (Hscr & Hsrc & Hl) Ha. simpl.
  destruct (user_action_reducer a (st c) (world c) Ha)
    as (s' & w' & Hr & Hi & Hf & He & Hrel & Hn & Hd).
  rewrite (dispatch_ok _ _ _ _ Hr). split; [|split].
  - unfold screen_current in *. simpl. destruct Hd as [Hd | [Hd Hv]]; [by left|].
    rewrite Hd, Hv. exact Hscr.
  - simpl. eapply source_ok_transfer; eauto.
  - eapply handles_live_transfer; [| | | | | exact Hl]; done.
Qed.

Lemma inv_drop c dt : core_inv c -> core_inv (handle_event c (Drop dt)).
Proof.
  intros Hinv. simpl.
  destruct (handleDrop dt (world c)) as [r w'] eqn:E.
  destruct (handleDrop_outcome dt (world c) r w' E) as [[-> Hnot] | (url & -> & ->)].
  - destruct r as [[[acts|f]|]|e]; [by destruct (Hnot acts) | ..];
      (eapply core_inv_transfer; [| | | | exact Hinv]; done).
  - simpl. apply inv_setImage. apply Hinv.
Qed.

Lemma inv_buffer c i : core_inv c -> core_inv (handle_event c (BufferReady i)).
Proof.
  intros Hinv. simpl. destruct (pending c !! i) as [f|]; [|done].
  set (c1 := mkConfig (st c) (world c) (mounted c) (resolution c) (delete i (pending c)) (painted c) (cleared c)).
  assert (Hinv1 : core_inv c1) by (eapply core_inv_transfer; [| | | | exact Hinv]; done).
  destruct (loadImage_resume f (world c)) as [[acts|e] w'] eqn:E.
  - destruct (loadImage_resume_outcome f (world c) acts w' E)
      as [[-> ->] | [(url & -> & ->) | (bs & d & -> & Hlen & ->)]].
    + eapply core_inv_transfer; [| | | | exact Hinv1]; done.
    + simpl. apply (inv_setImage c1). apply Hinv1.
    + simpl. apply (inv_setGif c1 bs d); [apply Hinv1 | done].
  - destruct Hinv1 as (Hscr & Hsrc & Hl). pose proof Hl as (Hwf & Hrel & Himg & Hfr).
    destruct (loadImage_resume_frames f (world c) _ _ Hwf E) as (Hwf' & Hn & _ & _ & Hel).
    apply loadImage_resume_throw_released in E.
    split; [done | split; [done |]]. split; [|split; [|split]]; simpl in *.
    + done.
    + intros h Hh. rewrite E in Hh. specialize (Hrel h Hh). lia.
    + intros h Hh. rewrite E. destruct (Himg h Hh) as (Hnr & src & Hsrc').
      split; [done|]. exists src. rewrite Hel; [done | | set_solver].
      apply Hwf. by rewrite Hsrc'.
    + intros fr h Hf Hh. rewrite E. destruct (Hfr fr h Hf Hh) as (Hnr & bm & Hbm).
      split; [done|]. exists bm. rewrite Hel; [done | | set_solver].
      apply Hwf. by rewrite Hbm.
Qed.

Lemma inv_frame c t : core_inv c -> core_inv (handle_event c (AnimationFrame t)).
Proof.
  intros Hinv. simpl.
  destruct (tick (mounted c) (st c) t (world c)) as [r w'] eqn:E.
  destruct (tick_outcome _ _ _ _ _ _ E) as [-> [-> | (c0 & k & ->)]].
  - eapply core_inv_transfer; [| | | | exact Hinv]; done.
  - destruct Hinv as (Hscr & Hsrc & Hl). simpl.
    unfold dispatch. simpl.
    split; [right; split; [done | by do 3 eexists] |]. split.
    + eapply source_ok_transfer; [| | exact Hsrc]; done.
    + eapply handles_live_transfer; [| | | | | exact Hl]; done.
Qed.

End Events.

(** ** Theorems on the application *)

(** ** Lemmas: the render after each handler *)

Lemma dispatch_render a c :
  resolution (dispatch a c) = resolution c /\ mounted (dispatch a c) = mounted c /\
  (view (st (dispatch a c)) = view (st c) \/ dirty (st (dispatch a c)) = true).
Proof.
  unfold dispatch. destruct (reducer (st c) a (world c)) as [[s'|e] w'] eqn:E; simpl; [|auto].
  split; [done | split; [done |]]. exact (reducer_view_or_dirty _ _ _ _ _ E).
Qed.

(** The facts of [dispatch_render] for a dispatch on a configuration
    with the same state, props and mount. *)
Local Ltac by_dispatch_render :=
  match goal with
  | |- context [dispatch ?a ?c'] =>
      pose proof (dispatch_render a c') as HR;
      cbn [with_world resolution mounted st] in HR |- *; exact HR
  end.

Section HandleRender.
Context `{GifLib}.

(** A handler changes neither the canvas's props nor the mount, and it
    changes what is drawn only together with the dirty flag. *)
Lemma handle_render c e :
  resolution (handle_event c e) = resolution c /\ mounted (handle_event c e) = mounted c /\
  (view (st (handle_event c e)) = view (st c) \/ dirty (st (handle_event c e)) = true).
Proof.
  destruct e as [a|dt|i|t]; simpl.
  - apply dispatch_render.
  - destruct (handleDrop dt (world c)) as [r w'] eqn:E.
    destruct (handleDrop_outcome dt (world c) r w' E) as [[-> Hnot] | (url & -> & ->)].
    + destruct r as [[[acts|f]|]|e]; [by destruct (Hnot acts) | ..]; simpl; auto.
    + cbn [dispatch_all fold_left]. by_dispatch_render.
  - destruct (pending c !! i) as [f|]; [|auto].
    destruct (loadImage_resume f (world c)) as [[acts|e] w'] eqn:E; [|simpl; auto].
    destruct (loadImage_resume_outcome f (world c) acts w' E)
      as [[-> ->] | [(url & -> & ->) | (bs & d & -> & Hlen & ->)]]; simpl;
      cbn [dispatch_all fold_left]; [auto | by_dispatch_render | by_dispatch_render].
  - destruct (tick (mounted c) (st c) t (world c)) as [r w'] eqn:E.
    destruct (tick_outcome _ _ _ _ _ _ E) as [-> [-> | (c0 & k & ->)]]; simpl; [auto|].
    split; [done | split; [done | by left]].
Qed.

End HandleRender.

Section Commit.
Context `{QualityScale}.

Lemma commit_run c :
  commit c =
  let r := qualityToResolution (quality (st c)) in
  mkConfig (st c)
    (if bool_decide (r = resolution c) then world c
     else match mounted c with
          | Some k => set_elements (alter (resize_to r) k (elements (world c))) (world c)
          | None => world c
          end)
    (mounted c) r (pending c) (painted c) (cleared c || negb (bool_decide (r = resolution c))).
Proof. unfold commit. by rewrite render_run. Qed.

(** The elements the state holds survive a resize of the canvas. *)
Lemma handles_live_resize c c' k r :
  st c' = st c -> world c' = set_elements (alter (resize_to r) k (elements (world c))) (world c) ->
  handles_live c -> handles_live c'.
Proof.
  intros Hs Hw (Hwf & Hrel & Himg & Hfr). unfold handles_live. rewrite Hs, Hw. simpl.
  split; [|split; [done | split]].
  - intros h Hh. apply Hwf. by apply (resize_keeps_kinds r k h (elements (world c))).
  - intros h Hh. destruct (Himg h Hh) as (Hnr & src & Hsrc). split; [done|].
    exists src. by apply (resize_keeps_kinds r k h (elements (world c))).
  - intros fr h Hf Hh. destruct (Hfr fr h Hf Hh) as (Hnr & bm & Hbm). split; [done|].
    by apply (resize_keeps_kinds r k h (elements (world c))) in Hbm.
Qed.

(** The render after a handler that kept the props and changed what is
    drawn only with the dirty flag restores the invariant: a reset of the
    canvas happens only when the quality changed, so the state is dirty. *)
Lemma inv_commit c0 c :
  committed c0 -> core_inv c -> resolution c = resolution c0 ->
  (view (st c) = view (st c0) \/ dirty (st c) = true) -> app_inv (commit c).
Proof.
  intros Hc0 (Hscr & Hsrc & Hl) Hres Hvd. rewrite commit_run. simpl.
  split; [| done].
  case_bool_decide as Heq; simpl.
  - rewrite orb_false_r.
    eapply core_inv_transfer; [| | | | exact (conj Hscr (conj Hsrc Hl))]; done.
  - assert (Hd : dirty (st c) = true).
    { destruct Hvd as [Hv|Hd]; [|done]. exfalso. apply Heq.
      unfold committed in Hc0. rewrite Hres, Hc0. f_equal. by apply (f_equal v_quality) in Hv. }
    split; [by left | split; [done |]].
    destruct (mounted c) as [k|].
    + eapply handles_live_resize; [| | exact Hl]; done.
    + eapply handles_live_transfer; [| | | | | exact Hl]; done.
Qed.

Lemma foreign_commit w0 c : foreign_untouched w0 c -> foreign_untouched w0 (commit c).
Proof.
  intros (Hn0 & Hf). rewrite commit_run. unfold foreign_untouched. simpl.
  split; [by case_bool_decide; [| destruct (mounted c)] |].
  intros h Hlt. destruct (Hf h Hlt) as (Hel & Hk & Hrl & Hnh).
  case_bool_decide; [done|]. destruct (mounted c) as [k|]; [|done]. simpl.
  destruct (resize_keeps_kinds (qualityToResolution (quality (st c))) k h (elements (world c)))
    as (_ & _ & Hkind & _).
  split; [| split; [by rewrite Hkind | done]].
  intros Hne. rewrite lookup_alter_ne by congruence. by apply Hel.
Qed.

Lemma sized_commit c : mounted_sized c -> mounted_sized (commit c).
Proof.
  intros Hs k Hk. rewrite commit_run in Hk |- *. simpl in *.
  destruct (Hs k Hk) as (bm & Hbm & Hw & Hh).
  case_bool_decide as Heq; [exists bm; by rewrite Heq |].
  rewrite Hk. simpl. rewrite lookup_alter_eq, Hbm. simpl. by eexists.
Qed.

End Commit.

(** One handler that changes only what the program owns keeps the page's
    own elements untouched. *)
Lemma foreign_step w0 c c' :
  foreign_untouched w0 c -> changes_only_own c c' -> mounted c' = mounted c ->
  foreign_untouched w0 c'.
Proof.
  intros (Hn0 & Hf) (Hn & Hr & He & Hrel & Hh) Hm. split; [lia|].
  intros h Hlt. destruct (Hf h Hlt) as (Hel & Hk & Hrl & Hnh). rewrite Hm.
  split; [|split; [|split]].
  - intros Hne. rewrite He by lia. by apply Hel.
  - rewrite He by lia. done.
  - split; intros Hin.
    + destruct (Hrel h Hin) as [H'|[H'|H']]; [by apply Hrl | done | lia].
    + apply Hr. by apply Hrl.
  - intros Hin. destruct (Hh h Hin) as [H'|H']; [done | lia].
Qed.

Lemma sized_step c c' :
  world_wf (world c) -> mounted_sized c -> changes_only_own c c' -> mounted c' = mounted c ->
  resolution c' = resolution c -> mounted_sized c'.
Proof.
  intros Hwf Hs (_ & _ & He & _ & _) Hm Hr k Hk. rewrite Hm in Hk.
  destruct (Hs k Hk) as (bm & Hbm & Hw & Hh). exists bm. rewrite He, Hr; [done|].
  apply Hwf. by rewrite Hbm.
Qed.

Section Theorems.
Context `{GifLib} `{QualityScale}.

Lemma init_inv m w0 : world_ok w0 -> app_inv (init m w0).
Proof.
  intros [Hwf Hrel]. split; [|done]. split; [by left | split; [done |]].
  split; [done | split; [done | split; discriminate]].
Qed.

Lemma reachable_inv m w0 c : world_ok w0 -> reachable m w0 c -> app_inv c.
Proof.
  intros Hw0 Hr. induction Hr as [| c a Hr IH Ha | c dt Hr IH | c i Hr IH | c t Hr IH].
  1: by apply init_inv.
  all: destruct IH as [Hcore Hc]; unfold step;
    match goal with
    | |- app_inv (commit (handle_event ?c0 ?e)) =>
        destruct (handle_render c0 e) as (Hres & _ & Hvd); apply (inv_commit c0); try done
    end.
  - by apply inv_user.
  - by apply inv_drop.
  - by apply inv_buffer.
  - by apply inv_frame.
Qed.

Lemma reachable_mounted m w0 c : reachable m w0 c -> mounted c = m.
Proof.
  intros Hr. induction Hr as [| c a Hr IH Ha | c dt Hr IH | c i Hr IH | c t Hr IH]; [done|..];
    unfold step; rewrite commit_run; cbn [mounted]; by rewrite (proj1 (proj2 (handle_render c _))).
Qed.

Lemma reachable_foreign m w0 c : world_ok w0 -> reachable m w0 c -> foreign_untouched w0 c.
Proof.
  intros Hw0 Hr. induction Hr as [| c a Hr IH Ha | c dt Hr IH | c i Hr IH | c t Hr IH].
  1: { split; [done|]. intros h _. split; [done | split; [done | split; [done |]]].
       unfold held. simpl. set_solver. }
  all: unfold step; apply foreign_commit;
    destruct (reachable_inv m w0 c Hw0 Hr) as ((_ & _ & Hwf & _) & _);
    apply (foreign_step w0 c); [done | apply (handle_changes c _ Hwf) | apply handle_render].
  1: intros a' [= <-]; by destruct a.
  all: by intros ? [=].
Qed.

Lemma reachable_sized m w0 c :
  world_ok w0 -> mounted_sized (init m w0) -> reachable m w0 c -> mounted_sized c.
Proof.
  intros Hw0 Hm0 Hr. induction Hr as [| c a Hr IH Ha | c dt Hr IH | c i Hr IH | c t Hr IH].
  1: done.
  all: unfold step; apply sized_commit;
    destruct (reachable_inv m w0 c Hw0 Hr) as ((_ & _ & Hwf & _) & _);
    match goal with
    | |- mounted_sized (handle_event ?c0 ?e) =>
        destruct (handle_render c0 e) as (Hres & Hmnt & _);
        apply (sized_step c0); [done | done | apply (handle_changes c0 _ Hwf) | done | done]
    end.
  1: intros a' [= <-]; by destruct a.
  all: by intros ? [=].
Qed.

End Theorems.


Section AppTheorems.
Context `{GifLib} `{QualityScale}.

(** C1. No lost redraw: in every reachable configuration whose state is
    clean, the canvas was not reset (by a change of its resolution) since
    the last [drawFrame] call, and that call painted a state with the same
    drawn fields (quality, padding, angle, flag, source and delay) as the
    current state. *)
Theorem no_lost_redraw m w0 c :
  world_ok w0 -> reachable m w0 c -> dirty (st c) = false ->
  cleared c = false /\
  exists s0 t0 rest, painted c = (s0, t0) :: rest /\ view s0 = view (st c).
Proof.
  intros Hw0 Hr Hd. destruct (reachable_inv m w0 c Hw0 Hr) as (([Hd'|Hp] & _) & _).
  - congruence.
  - exact Hp.
Qed.

(** C7. At most one source: no reachable state holds both an image and
    GIF frames, and GIF frames are always two or more distinct canvases. *)
Theorem single_source m w0 c :
  world_ok w0 -> reachable m w0 c ->
  ~ (image (st c) <> None /\ frames (st c) <> None) /\
  forall fr, frames (st c) = Some fr -> (2 <= length fr)%nat /\ NoDup fr.
Proof.
  intros Hw0 Hr. destruct (reachable_inv m w0 c Hw0 Hr) as ((_ & Hsrc & _) & _).
  unfold source_ok in Hsrc.
  destruct (image (st c)), (frames (st c)); split; intros; simplify_eq; naive_solver.
Qed.

(** C8. No use after release: every element a reachable state holds (its
    image and its frames) exists in the page and [remove()] was never
    called on it. *)
Theorem no_use_after_release m w0 c :
  world_ok w0 -> reachable m w0 c ->
  forall h, h ∈ held (st c) -> (h ∉ released (world c)) /\ is_Some (elements (world c) !! h).
Proof.
  intros Hw0 Hr h Hh. destruct (reachable_inv m w0 c Hw0 Hr) as ((_ & _ & _ & _ & Himg & Hfr) & _).
  unfold held in Hh. apply elem_of_app in Hh as [Hh|Hh].
  - destruct (image (st c)) as [i|] eqn:Ei; [|set_solver].
    apply list_elem_of_singleton in Hh as ->.
    destruct (Himg _ eq_refl) as (? & src & ->). by split.
  - destruct (frames (st c)) as [fr|] eqn:Ef; simpl in Hh; [|set_solver].
    destruct (Hfr _ _ eq_refl Hh) as (? & bm & ->). by split.
Qed.

Lemma step_idle_frame c t :
  dirty (st c) = false -> frames (st c) = None -> committed c -> step c (AnimationFrame t) = c.
Proof.
  intros Hd Hf Hc. unfold step, committed in *. simpl.
  destruct (tick_contract (mounted c) (st c) t (world c)) as (effs & -> & Hct).
  inversion Hct; subst; [intuition congruence |]. rewrite commit_run. simpl.
  rewrite bool_decide_eq_true_2 by done. rewrite orb_false_r, <- Hc. by destruct c.
Qed.

(** C2. Every change is painted at the next animation frame: when the
    state is dirty, not saving, and the mounted canvas has a 2d context,
    the next frame paints exactly the current state at the frame's time
    and leaves the state clean, with nothing else changed. *)
Theorem next_frame_paints_change c t k bm :
  dirty (st c) = true -> saving (st c) = false -> mounted c = Some k ->
  elements (world c) !! k = Some (CanvasElement bm) -> context_2d (world c) = true ->
  painted (step c (AnimationFrame t)) = (st c, t) :: painted c /\
  st (step c (AnimationFrame t)) = set_dirty false (st c).
Proof.
  intros Hd Hs Hm Hk Hctx. unfold step. rewrite commit_run. cbn [painted st]. simpl.
  destruct (tick_contract (mounted c) (st c) t (world c)) as (effs & -> & Hc).
  rewrite Hm in Hc. unfold context_of, getContext_2d, gets in Hc. simpl in Hc.
  rewrite Hk, Hctx in Hc.
  inversion Hc as [c0 k0 _ Href Hctx' _ | Hskip]; subst.
  - injection Href as <-. injection Hctx' as <-. unfold dispatch. simpl. done.
  - exfalso. intuition congruence.
Qed.

(** C3. At most one redraw per change: from a clean state without GIF
    frames (nothing shown, or a still image already painted) whose canvas
    has the resolution of its quality, any number of animation frames
    paints nothing and changes nothing. *)
Theorem idle_frames_paint_nothing c (ts : list number) :
  dirty (st c) = false -> frames (st c) = None -> committed c ->
  run c (map AnimationFrame ts) = c.
Proof.
  intros Hd Hf Hc. unfold run. induction ts as [|t ts IH]; [done|].
  cbn [map fold_left]. rewrite step_idle_frame by done. exact IH.
Qed.

(** C9. The program touches no element it did not create: every element
    the page had when the program started keeps its contents, except the
    mounted canvas, which stays a canvas (React resizes it); none of them
    is released by the program or held by the state as its image or one
    of its frames, in every reachable configuration. *)
Theorem page_elements_untouched m w0 c :
  world_ok w0 -> reachable m w0 c ->
  forall h, (h < next_handle w0)%nat ->
    (m <> Some h -> elements (world c) !! h = elements w0 !! h) /\
    is_canvas (elements (world c) !! h) = is_canvas (elements w0 !! h) /\
    (h ∈ released (world c) <-> h ∈ released w0) /\ h ∉ held (st c).
Proof.
  intros Hw0 Hr. rewrite <- (reachable_mounted m w0 c Hr).
  apply (reachable_foreign m w0 c Hw0 Hr).
Qed.

(** C10. The canvas has the resolution of the current quality: when the
    mounted canvas of the page had the resolution of the initial quality,
    in every reachable configuration it is a square canvas of
    [qualityToResolution] of the current quality. *)
Theorem canvas_matches_quality m w0 c k :
  world_ok w0 -> mounted_sized (init m w0) -> reachable m w0 c -> m = Some k ->
  exists bm, elements (world c) !! k = Some (CanvasElement bm) /\
    bm_width bm = qualityToResolution (quality (st c)) /\
    bm_height bm = qualityToResolution (quality (st c)).
Proof.
  intros Hw0 Hm0 Hr ->.
  destruct (reachable_sized _ _ _ Hw0 Hm0 Hr k (reachable_mounted _ _ _ Hr)) as (bm & Hbm & Hw & Hh).
  destruct (reachable_inv _ _ _ Hw0 Hr) as (_ & Hc). unfold committed in Hc.
  rewrite <- Hc. eauto.
Qed.

End AppTheorems.

(** ** The store's context *)

Section StoreContextTheorems.
Context `{GifLib}.

Lemma run_effects_in_provider effs c :
  run_effects_in ReactDispatch effs c = (Ok tt, fold_left run_effect effs c).
Proof. revert c. induction effs as [|[] rest IH]; intros c; simpl; [done | apply IH | apply IH]. Qed.

(** C24. The store's context.  A [Canvas] under the [Provider] reads the
    current state and React's dispatch, and its animation-frame callback
    is the handler of the model.  Outside any [Provider] it reads the
    context's default value, whose [dispatch] is [undefined]: on a ready
    canvas every animation frame paints the initial state and then throws
    a [TypeError] at [dispatch({ type: 'markClean' })], with the store's
    state unchanged, so the next frame does the same. *)
Theorem canvas_store_context (w0 : World) (c : Config) (t : number) (k : nat) (bm : Bitmap) :
  snd (frame_in (Provider_value c) c t) = handle_event c (AnimationFrame t) /\
  (mounted c = Some k -> elements (world c) !! k = Some (CanvasElement bm) ->
   context_2d (world c) = true ->
   frame_in (store_default w0) c t =
     (Throw TypeError,
      mkConfig (st c) (world c) (mounted c) (resolution c) (pending c)
               ((initialState (Some (storage w0)), t) :: painted c) false)).
Proof.
  split.
  - unfold frame_in. simpl. destruct (tick _ _ _ _) as [[effs|e] w'].
    + by rewrite run_effects_in_provider.
    + done.
  - intros Hm Hk Hctx. unfold frame_in, tick. simpl. rewrite Hm.
    unfold bind, getContext_2d, gets. rewrite Hk, Hctx. simpl.
    destruct c; simpl in *. by subst.
Qed.

End StoreContextTheorems.

Section StaleDecodes.
Context `{GifLib} `{QualityScale}.


End StaleDecodes.

(** ** Witnesses *)

Lemma page_world_ok : world_ok page_world.
Proof. split; [apply (bool_decide_unpack _); vm_compute; reflexivity | set_solver]. Qed.

Lemma no_lost_redraw_witness :
  cleared (@step two_gifs_lib quality_steps (@init quality_steps (Some 0%nat) page_world) (AnimationFrame 16)) = false /\
  exists s0 t0 rest,
    painted (@step two_gifs_lib quality_steps (@init quality_steps (Some 0%nat) page_world) (AnimationFrame 16)) =
      (s0, t0) :: rest /\
    view s0 = view (st (@step two_gifs_lib quality_steps (@init quality_steps (Some 0%nat) page_world) (AnimationFrame 16))).
Proof.
  apply (@no_lost_redraw two_gifs_lib quality_steps (Some 0%nat) page_world).
  - exact page_world_ok.
  - apply reach_frame, reach_init.
  - vm_compute. reflexivity.
Defined.

Lemma single_source_witness :
  let c := @run two_gifs_lib quality_steps (@init quality_steps (Some 0%nat) page_world)
             [Drop (Some (gif_drop [65%Z])); BufferReady 0] in
  frames (st c) = Some [1%nat; 2%nat] /\ ((2 <= length [1%nat; 2%nat])%nat /\ NoDup [1%nat; 2%nat]).
Proof.
  split; [vm_compute; reflexivity |].
  apply (proj2 (@single_source two_gifs_lib quality_steps (Some 0%nat) page_world _ page_world_ok
                  (reach_buffer _ _ _ 0 (reach_drop _ _ _ (Some (gif_drop [65%Z])) (reach_init _ _))))).
  vm_compute. reflexivity.
Defined.

Lemma no_use_after_release_witness :
  is_Some (elements (world (@step two_gifs_lib quality_steps (@init quality_steps (Some 0%nat) page_world)
                                  (Drop (Some png_drop)))) !! 1%nat).
Proof.
  apply (@no_use_after_release two_gifs_lib quality_steps (Some 0%nat) page_world).
  - exact page_world_ok.
  - apply reach_drop, reach_init.
  - vm_compute. apply list_elem_of_here.
Defined.

Lemma next_frame_paints_change_witness :
  let c := @init quality_steps (Some 0%nat) page_world in
  painted (@step two_gifs_lib quality_steps c (AnimationFrame 16)) = (st c, 16) :: painted c /\
  st (@step two_gifs_lib quality_steps c (AnimationFrame 16)) = set_dirty false (st c).
Proof.
  apply (@next_frame_paints_change two_gifs_lib quality_steps _ 16 0 (blank_bitmap 512 512));
    reflexivity.
Defined.

Lemma idle_frames_paint_nothing_witness :
  let c := @step two_gifs_lib quality_steps (@init quality_steps (Some 0%nat) page_world) (AnimationFrame 16) in
  @run two_gifs_lib quality_steps c (map AnimationFrame [32; 48]) = c.
Proof. apply idle_frames_paint_nothing; vm_compute; reflexivity. Defined.

Lemma page_elements_untouched_witness :
  let c := @run two_gifs_lib quality_steps (@init quality_steps (Some 0%nat) page_world)
             [Drop (Some png_drop); Drop (Some (gif_drop [65%Z])); BufferReady 0] in
  is_canvas (elements (world c) !! 0%nat) = true /\ 0%nat ∉ held (st c).
Proof.
  destruct (@page_elements_untouched two_gifs_lib quality_steps (Some 0%nat) page_world _ page_world_ok
              (reach_buffer _ _ _ 0 (reach_drop _ _ _ (Some (gif_drop [65%Z]))
                 (reach_drop _ _ _ (Some png_drop) (reach_init _ _)))) 0%nat
              ltac:(vm_compute; lia)) as (_ & Hk & _ & Hh).
  split; [exact (eq_trans Hk eq_refl) | exact Hh].
Defined.

(** Raising the quality from 3 to 5 resizes the canvas from 512 to 768
    pixels. *)
Lemma canvas_matches_quality_witness :
  let c := @run two_gifs_lib quality_steps (@init quality_steps (Some 0%nat) page_world)
             [UserAction (setQuality 5); AnimationFrame 16] in
  exists bm, elements (world c) !! 0%nat = Some (CanvasElement bm) /\
    bm_width bm = 768%Z /\ bm_height bm = 768%Z.
Proof.
  destruct (@canvas_matches_quality two_gifs_lib quality_steps (Some 0%nat) page_world _ 0%nat
              page_world_ok
              ltac:(intros k Hk; injection Hk as <-; eexists; split; [reflexivity | split; reflexivity])
              (reach_frame _ _ _ 16 (reach_user _ _ _ (setQuality 5) (reach_init _ _) eq_refl))
              eq_refl) as (bm & Hbm & Hw & Hh).
  exists bm. split; [exact Hbm |]. split; [rewrite Hw | rewrite Hh]; vm_compute; reflexivity.
Defined.

Lemma canvas_store_context_witness :
  let c := @init quality_steps (Some 0%nat) page_world in
  frame_in (store_default page_world) c 16 =
    (Throw TypeError,
     mkConfig (st c) (world c) (mounted c) (resolution c) (pending c)
              ((initialState (Some (storage page_world)), 16) :: painted c) false).
Proof.
  apply (proj2 (@canvas_store_context two_gifs_lib page_world _ 16 0 (blank_bitmap 512 512)));
    reflexivity.
Defined.

