(* ===== verification/Paint.v ===== *)
(** * Paint: the frame selection of the external paint routine

    [drawFrame] ([~lib/render]) is imported by Canvas.tsx but is not among
    the sources under [src/].  The specification states how it selects the
    frame of a sequence to draw:
    [frameIndex = floor(elapsedSinceSequenceStart / delay) mod length].
    [frame_index] models that formula from the specification.  The
    theorem shows that the running program, fed animation frames at
    [t0 + i * delay], keeps painting the sequence and draws its frames in
    order, whatever came before. *)

From S2P Require Import Prelude Dom Store Load Canvas App.
From Stdlib Require Import QArith Qround Lqa.

(** The index of the frame shown [elapsed] time units after the sequence
    started, for a sequence of [len] frames shown [delay] units each.  The
    division needs [delay > 0] (the specification's invariant of a
    sequence) and the remainder [len > 0]: otherwise no frame is selected
    (in JavaScript, [Infinity] or [NaN] indexes no element). *)
Definition frame_index (elapsed delay : number) (len : nat) : option nat :=
  if js_lt 0 delay && negb (Nat.eqb len 0) then
    Some (Z.to_nat (Z.modulo (Qfloor (elapsed / delay)) (Z.of_nat len)))
  else None.

(** The frame the paint routine draws for a state at time [t], the
    sequence having started at [t0]. *)
Definition shown_frame (s : State) (t0 t : number) : option nat :=
  match frames s with
  | Some fr => match frame_index (t - t0) (delay s) (length fr) with
               | Some i => fr !! i
               | None => None
               end
  | None => None
  end.

(** ** Lemmas on the frame selection *)

(** At the time [t0 + i * delay], the formula selects frame [i]. *)
Lemma frame_index_at (t0 d : number) (len i : nat) :
  0 < d -> (i < len)%nat ->
  frame_index (t0 + inject_Z (Z.of_nat i) * d - t0) d len = Some i.
Proof.
  intros Hd Hi.
  assert (He : (t0 + inject_Z (Z.of_nat i) * d - t0) / d == inject_Z (Z.of_nat i)).
  { field. intros Hz. rewrite Hz in Hd. apply (Qlt_irrefl 0 Hd). }
  unfold frame_index. destruct (js_lt_spec 0 d) as [_|Hn]; [|done].
  destruct (Nat.eqb_spec len 0) as [|_]; [lia|]. cbn [andb negb].
  rewrite He, Qfloor_Z, Z.mod_small by lia. f_equal. lia.
Qed.

Section Ticks.
Context `{GifLib} `{QualityScale}.

(** An animation frame on a configuration that shows a sequence on a
    mounted canvas with a 2d context paints the current state at the
    frame's time, marks it clean, and keeps the canvas drawable. *)
Lemma step_frame_sequence c t k :
  saving (st c) = false -> mounted c = Some k -> is_canvas (elements (world c) !! k) = true ->
  context_2d (world c) = true -> frames (st c) <> None ->
  painted (step c (AnimationFrame t)) = (st c, t) :: painted c /\
  st (step c (AnimationFrame t)) = set_dirty false (st c) /\
  mounted (step c (AnimationFrame t)) = mounted c /\
  is_canvas (elements (world (step c (AnimationFrame t))) !! k) = true /\
  context_2d (world (step c (AnimationFrame t))) = true.
Proof.
  intros Hs Hm Hk Hctx Hf.
  destruct (elements (world c) !! k) as [[src|bm]|] eqn:Ek; try discriminate.
  unfold step. rewrite commit_run. cbn zeta. simpl.
  destruct (tick_contract (mounted c) (st c) t (world c)) as (effs & -> & Hc).
  rewrite Hm in Hc. unfold context_of, getContext_2d, gets in Hc. simpl in Hc.
  rewrite Ek, Hctx in Hc.
  inversion Hc as [c0 k0 _ Href Hctx' _ | Hskip]; subst; [| exfalso; intuition congruence].
  injection Href as <-. injection Hctx' as <-. unfold dispatch. simpl.
  split; [done | split; [done | split; [done |]]].
  case_bool_decide; [by rewrite Ek |]. rewrite Hm. simpl. split; [| done].
  destruct (resize_keeps_kinds (qualityToResolution (quality (st c))) k k (elements (world c)))
    as (_ & _ & Hkind & _).
  by rewrite Hkind, Ek.
Qed.

(** Whatever animation frames came before, the last one of a run paints a
    state showing the same sequence with the same delay. *)
Lemma run_frames_sequence c k ts t :
  saving (st c) = false -> mounted c = Some k -> is_canvas (elements (world c) !! k) = true ->
  context_2d (world c) = true -> frames (st c) <> None ->
  exists s rest, painted (run c (map AnimationFrame (ts ++ [t]))) = (s, t) :: rest /\
    frames s = frames (st c) /\ delay s = delay (st c).
Proof.
  revert c. induction ts as [|t' ts IH]; intros c Hs Hm Hk Hctx Hf.
  - destruct (step_frame_sequence c t k Hs Hm Hk Hctx Hf) as (Hp & _).
    unfold run. simpl. rewrite Hp. by do 2 eexists.
  - destruct (step_frame_sequence c t' k Hs Hm Hk Hctx Hf) as (_ & Hst & Hm' & Hk' & Hctx').
    cbn [map app].
    change (run c (AnimationFrame t' :: ?l)) with (run (step c (AnimationFrame t')) l).
    destruct (IH (step c (AnimationFrame t'))) as (s & rest & Hp & Hfs & Hds);
      rewrite ?Hst, ?Hm'; try done.
    exists s, rest. by rewrite Hp, Hfs, Hds, Hst.
Qed.

End Ticks.

(** ** Theorems on the frame selection *)

Section PaintTheorems.
Context `{GifLib} `{QualityScale}.

(** C11. An animation shows its frames in order: while the canvas is
    mounted and drawable and no export runs, whatever animation frames
    came before, the frame at time [t0 + i * delay] paints a state whose
    shown frame is the [i]-th frame of the sequence. *)
Theorem animation_shows_frames_in_order c k fr (t0 : number) (ts : list number) (i : nat) :
  saving (st c) = false -> mounted c = Some k -> is_canvas (elements (world c) !! k) = true ->
  context_2d (world c) = true -> frames (st c) = Some fr -> 0 < delay (st c) ->
  (i < length fr)%nat ->
  let t := t0 + inject_Z (Z.of_nat i) * delay (st c) in
  exists s rest, painted (run c (map AnimationFrame (ts ++ [t]))) = (s, t) :: rest /\
    shown_frame s t0 t = fr !! i.
Proof.
  intros Hs Hm Hk Hctx Hf Hd Hi t.
  destruct (run_frames_sequence c k ts t Hs Hm Hk Hctx ltac:(by rewrite Hf))
    as (s & rest & Hp & Hfs & Hds).
  exists s, rest. split; [done|]. unfold shown_frame, t. rewrite Hfs, Hf, Hds.
  by rewrite frame_index_at.
Qed.

End PaintTheorems.

(** ** Witnesses *)

(** The second frame of the red-and-blue GIF is drawn at time
    [1000 + 1 * 100], after two earlier frames. *)
Lemma animation_shows_frames_in_order_witness :
  let c := @run two_gifs_lib quality_steps (@init quality_steps (Some 0%nat) page_world)
             [Drop (Some (gif_drop [65%Z])); BufferReady 0] in
  let t := 1000 + inject_Z (Z.of_nat 1) * delay (st c) in
  exists s rest, painted (@run two_gifs_lib quality_steps c (map AnimationFrame ([16; 32] ++ [t]))) =
    (s, t) :: rest /\ shown_frame s 1000 t = [1%nat; 2%nat] !! 1%nat.
Proof.
  apply (@animation_shows_frames_in_order two_gifs_lib quality_steps _ 0%nat);
    vm_compute; try reflexivity; lia.
Defined.
